(** * claude-sync: merge engine, conflict resolver and sync orchestrator

    A shallow embedding of [src/core/merger.ts], [src/core/conflict-resolver.ts]
    and the push/pull paths of [src/core/sync-engine.ts], with the properties
    the specification states about them.

    Modelling conventions

    - A JavaScript value obtained from [JSON.parse] is a [JSValue]: the four
      primitive shapes, and one container shape carrying the [Array.isArray]
      flag together with its own enumerable properties in [Object.keys]
      order.  An array [[a, b]] is the container flagged as array with the
      properties ["0"], ["1"].  Keys of one container are pairwise distinct
      ([wf]).  [key in obj] and [obj[key]] are own-property membership and
      lookup: property names that a JavaScript object inherits from its
      prototype (or an array's [length]) are not data keys of this model.
    - Numbers are the integral ones ([Z]); [===] on primitives and equality
      of [JSON.stringify] outputs on parsed documents are both structural
      equality (key order included).
    - The three directories of [getClaudePaths] ([~/.claude],
      [~/.claude-sync/repo], [~/.claude-sync/backups]) are disjoint, so each
      is a finite map from relative path to file.  Disk and permission errors
      are not modelled: a read of an existing file and any write succeed.
    - Collaborators that live outside the modelled files (the prompt, the
      scanner, the git transport, [JSON.parse], [deepmerge]) are section
      variables. *)

From Stdlib Require Import ZArith Ascii String List Bool Lia.
From stdpp Require Import base option list strings gmap fin_maps pretty
  sorting.

Open Scope string_scope.
Open Scope list_scope.

(* ===================================================================== *)
(** ** JavaScript values *)
(* ===================================================================== *)

Module JS.

Unset Elimination Schemes.
Inductive JSValue : Type :=
| JNull
| JBool (b : bool)
| JNum (n : Z)
| JStr (s : string)
| JNode (isArray : bool) (props : list (string * JSValue)).
Set Elimination Schemes.

Abbreviation Props := (list (string * JSValue)).

(** Induction with the hypothesis available for every property value. *)
Definition JSValue_ind (P : JSValue -> Prop)
    (Hnull : P JNull)
    (Hbool : forall b, P (JBool b))
    (Hnum : forall n, P (JNum n))
    (Hstr : forall s, P (JStr s))
    (Hnode : forall a ps, Forall (fun kv => P (snd kv)) ps -> P (JNode a ps)) :
  forall v, P v :=
  fix go (v : JSValue) : P v :=
    match v with
    | JNull => Hnull
    | JBool b => Hbool b
    | JNum n => Hnum n
    | JStr s => Hstr s
    | JNode a ps =>
        Hnode a ps
          ((fix walk (l : Props) : Forall (fun kv => P (snd kv)) l :=
              match l with
              | [] => @List.Forall_nil _ _
              | kv :: l' => @List.Forall_cons _ _ kv l' (go (snd kv)) (walk l')
              end) ps)
    end.

(** [{ k1: v1, ... }] *)
Definition JObject (ps : Props) : JSValue := JNode false ps.


(** [value === null || typeof value !== 'object'] *)
Definition isPrimitive (value : JSValue) : bool :=
  match value with
  | JNode _ _ => false
  | _ => true
  end.

(** [Array.isArray(value)] *)
Definition isArray (value : JSValue) : bool :=
  match value with
  | JNode a _ => a
  | _ => false
  end.

(** The own properties of a container; a primitive has none. *)
Definition props (value : JSValue) : Props :=
  match value with
  | JNode _ ps => ps
  | _ => []
  end.


(** [obj[key]] for an own key. *)
Fixpoint get (key : string) (ps : Props) : option JSValue :=
  match ps with
  | [] => None
  | (k, v) :: rest => if String.eqb k key then Some v else get key rest
  end.

(** [key in obj] *)
Definition has (key : string) (ps : Props) : bool :=
  match get key ps with
  | Some _ => true
  | None => false
  end.

(** Structural equality; it is what [a === b] decides on two primitives
    and what [JSON.stringify(a) === JSON.stringify(b)] decides on two
    parsed documents. *)
Fixpoint eqb (a b : JSValue) {struct a} : bool :=
  match a, b with
  | JNull, JNull => true
  | JBool x, JBool y => Bool.eqb x y
  | JNum x, JNum y => Z.eqb x y
  | JStr x, JStr y => String.eqb x y
  | JNode fa pa, JNode fb pb =>
      Bool.eqb fa fb &&
      (fix all2 (l : Props) (r : Props) {struct l} : bool :=
         match l, r with
         | [], [] => true
         | (k, v) :: l', (k', v') :: r' =>
             String.eqb k k' && eqb v v' && all2 l' r'
         | _, _ => false
         end) pa pb
  | _, _ => false
  end.

(** [local === remote], reached by the merger only when both sides are
    primitives. *)
Definition strictEq (a b : JSValue) : bool := eqb a b.

(** [JSON.stringify(a) === JSON.stringify(b)] *)
Definition sameJson (a b : JSValue) : bool := eqb a b.

(** The value found by following a path of keys from the root. *)
Fixpoint at_path (q : list string) (v : JSValue) : option JSValue :=
  match q with
  | [] => Some v
  | k :: q' =>
      match v with
      | JNode _ ps =>
          match get k ps with
          | Some w => at_path q' w
          | None => None
          end
      | _ => None
      end
  end.

(** Keys of one container are pairwise distinct, at every level. *)
Fixpoint wf (v : JSValue) : Prop :=
  match v with
  | JNode _ ps =>
      NoDup (map fst ps) /\
      (fix each (l : Props) : Prop :=
         match l with
         | [] => True
         | kv :: l' => wf (snd kv) /\ each l'
         end) ps
  | _ => True
  end.

End JS.

(* ===================================================================== *)
(** ** Strings as the code uses them *)
(* ===================================================================== *)

Module Str.

(** [parts.join('.')] *)
Definition join (sep : string) (parts : list string) : string :=
  String.concat sep parts.

(** [s.endsWith(suffix)] *)
Definition endsWith (s suffix : string) : bool :=
  let n := String.length s in
  let m := String.length suffix in
  (m <=? n)%nat && String.eqb (substring (n - m) m s) suffix.

(** [s.includes(needle)] *)
Fixpoint includes (s needle : string) : bool :=
  String.prefix needle s ||
  match s with
  | EmptyString => false
  | String _ rest => includes rest needle
  end.

Definition lowerChar (c : ascii) : ascii :=
  let n := nat_of_ascii c in
  if (65 <=? n)%nat && (n <=? 90)%nat then ascii_of_nat (n + 32) else c.

(** [s.toLowerCase()] on the ASCII letters. *)
Fixpoint toLowerCase (s : string) : string :=
  match s with
  | EmptyString => EmptyString
  | String c rest => String (lowerChar c) (toLowerCase rest)
  end.

End Str.

(* ===================================================================== *)
(** ** merger.ts *)
(* ===================================================================== *)

Module Merger.
Import JS.

(** Modelled from the spec: [ConflictStrategy] (types/index.ts is not among
    the sources) is one of ['ask' | 'local' | 'remote' | 'newest'], the
    cases the code switches on. *)
Inductive ConflictStrategy : Type := Ask | Local | Remote | Newest.

Definition isAsk (s : ConflictStrategy) : bool :=
  match s with Ask => true | _ => false end.

Record MergeResult : Type := mkMergeResult {
  result : JSValue;
  conflicts : list string;
  merged : bool
}.

(** [resolveConflict]: every strategy but ['local'] keeps the remote
    value. *)
Definition resolveConflict (strategy : ConflictStrategy)
    (local remote : JSValue) (path : list string) : JSValue :=
  match strategy with
  | Local => local
  | Remote => remote
  | Newest => remote
  | Ask => remote
  end.

(** The part of the [for (const key of allKeys)] loop that runs over the
    keys of [local]: they come first in the [Set] built from
    [[...Object.keys(local), ...Object.keys(remote)]].  A key missing in
    [remote] keeps the local value; a key of both recurses.  The array
    [conflicts] is threaded through. *)
Definition mergeLocalKeys
    (recurse : JSValue -> JSValue -> list string -> list string ->
               JSValue * list string)
    (remoteProps : Props) (path : list string) :
    Props -> list string -> Props * list string :=
  fix loop (ps : Props) (conflicts : list string) {struct ps} :=
    match ps with
    | [] => ([], conflicts)
    | kv :: ps' =>
        let (key, lv) := kv in
        match get key remoteProps with
        | None =>
            let (rest, conflicts') := loop ps' conflicts in
            ((key, lv) :: rest, conflicts')
        | Some rv =>
            let (v, conflicts1) :=
              recurse lv rv (path ++ [key]) conflicts in
            let (rest, conflicts2) := loop ps' conflicts1 in
            ((key, v) :: rest, conflicts2)
        end
    end.

(** The rest of the loop: the keys of [remote] that [local] lacks, taken
    from [remote] as they are. *)
Definition remoteOnly (localProps remoteProps : Props) : Props :=
  List.filter (fun kv => negb (has (fst kv) localProps)) remoteProps.

(** [deepMergeWithConflicts(local, remote, path, conflicts)]; returns the
    merged value and the array [conflicts] after the call. *)
Fixpoint deepMergeWithConflicts (strategy : ConflictStrategy)
    (local remote : JSValue) (path : list string)
    (conflicts : list string) {struct local} : JSValue * list string :=
  if isPrimitive local && isPrimitive remote then
    if negb (strictEq local remote) then
      (resolveConflict strategy local remote path,
       conflicts ++ [Str.join "." path])
    else (local, conflicts)
  else if isPrimitive local || isPrimitive remote then
    (resolveConflict strategy local remote path,
     conflicts ++ [Str.join "." path])
  else
    match local with
    | JNode la lp =>
        let (own, conflicts') :=
          mergeLocalKeys (deepMergeWithConflicts strategy)
            (props remote) path lp conflicts in
        (JNode la (own ++ remoteOnly lp (props remote)), conflicts')
    | _ => (local, conflicts)
    end.

(** A conflict site of two documents: a path of keys present on both
    sides where at least one side is a primitive and the two values
    differ. *)
Definition conflictSite (local remote : JSValue) (q : list string) : Prop :=
  exists a b, at_path q local = Some a /\ at_path q remote = Some b /\
              isPrimitive a || isPrimitive b = true /\ a <> b.

(** [mergeJson(local, remote)] *)
Definition mergeJson (strategy : ConflictStrategy)
    (local remote : JSValue) : MergeResult :=
  let (res, cs) := deepMergeWithConflicts strategy local remote [] [] in
  {| result := res;
     conflicts := cs;
     merged := (length cs =? 0)%nat || negb (isAsk strategy) |}.

(** [threeWayMerge(base, local, remote)] *)
Definition threeWayMerge (strategy : ConflictStrategy)
    (base local remote : JSValue) : MergeResult :=
  let localChanged := negb (sameJson local base) in
  let remoteChanged := negb (sameJson remote base) in
  if negb localChanged && negb remoteChanged then
    {| result := base; conflicts := []; merged := true |}
  else if negb localChanged then
    {| result := remote; conflicts := []; merged := true |}
  else if negb remoteChanged then
    {| result := local; conflicts := []; merged := true |}
  else
    let (res, cs) := deepMergeWithConflicts strategy local remote [] [] in
    {| result := res; conflicts := cs; merged := (length cs =? 0)%nat |}.

(** [canMerge(filePath)] *)
Definition canMerge (filePath : string) : bool :=
  existsb (fun ext => Str.endsWith filePath ext) [".json"].

Definition sensitiveFields : list string :=
  ["apiKey"; "apiToken"; "token"; "secret"; "password"; "credential"].

(** [sensitiveFields.some(field => key.toLowerCase().includes(field))] *)
Definition isSensitive (key : string) : bool :=
  existsb (fun field => Str.includes (Str.toLowerCase key) field)
    sensitiveFields.

(** The conflict detection loop of [mergeSettings], over
    [Object.keys(remote)]. *)
Fixpoint settingsConflicts (local : Props) (remoteKeys : Props)
    (conflicts : list string) : list string :=
  match remoteKeys with
  | [] => conflicts
  | (key, rv) :: rest =>
      let conflicts' :=
        match get key local with
        | Some lv =>
            if negb (sameJson lv rv) then
              if negb (isSensitive key) then conflicts ++ [key]
              else conflicts
            else conflicts
        | None => conflicts
        end in
      settingsConflicts local rest conflicts'
  end.

(** The [choice] argument of [applyMergeChoice]. *)
Inductive MergeChoice : Type := ChooseLocal | ChooseRemote | ChooseMerge.

(** What a call does: it returns, or an exception leaves it. *)
Inductive Outcome (A : Type) : Type :=
| Returns (a : A)
| Throws.
Arguments Returns {A} a.
Arguments Throws {A}.

Section WithLibraries.
(** The npm package [deepmerge], with the [arrayMerge] option of
    [mergeSettings] and without it. *)
Variable deepmergeRemoteArrays : JSValue -> JSValue -> JSValue.
Variable deepmerge : JSValue -> JSValue -> JSValue.
(** [JSON.parse]: [None] when it throws. *)
Variable JSON_parse : string -> option JSValue.
(** [JSON.stringify(v, null, 2)] *)
Variable JSON_stringify : JSValue -> string.

(** [mergeSettings(local, remote)] on the two settings objects. *)
Definition mergeSettings (local remote : JSValue) : MergeResult :=
  {| result := deepmergeRemoteArrays local remote;
     conflicts := settingsConflicts (props local) (props remote) [];
     merged := true |}.

(** [applyMergeChoice(localContent, remoteContent, choice)] *)
Definition applyMergeChoice (localContent remoteContent : string)
    (choice : MergeChoice) : string :=
  match choice with
  | ChooseLocal => localContent
  | ChooseRemote => remoteContent
  | ChooseMerge =>
      match JSON_parse localContent with
      | Some localJson =>
          match JSON_parse remoteContent with
          | Some remoteJson =>
              JSON_stringify (deepmerge localJson remoteJson)
          | None => remoteContent
          end
      | None => remoteContent
      end
  end.

(** [mergeFiles(localPath, remotePath, outputPath)] over a disk of
    files, path to content.  [copyFileSync] of a missing source
    throws; the [try] block turns a parse error into the conflict
    outcome. *)
Definition mergeFiles (strategy : ConflictStrategy)
    (localPath remotePath outputPath : string)
    (disk : gmap string string) :
    Outcome MergeResult * gmap string string :=
  match disk !! localPath with
  | None =>
      match disk !! remotePath with
      | Some remoteContent =>
          (Returns {| result := JNull; conflicts := []; merged := true |},
           <[outputPath := remoteContent]> disk)
      | None => (Throws, disk)
      end
  | Some localContent =>
      match disk !! remotePath with
      | None =>
          (Returns {| result := JNull; conflicts := []; merged := true |},
           <[outputPath := localContent]> disk)
      | Some remoteContent =>
          match JSON_parse localContent, JSON_parse remoteContent with
          | Some localJson, Some remoteJson =>
              let mergeResult := mergeJson strategy localJson remoteJson in
              (Returns mergeResult,
               <[outputPath := JSON_stringify (result mergeResult)]> disk)
          | _, _ =>
              (Returns {| result := JNull;
                          conflicts := [localPath];
                          merged := false |},
               disk)
          end
      end
  end.

End WithLibraries.

End Merger.

(* ===================================================================== *)
(** ** The disk *)
(* ===================================================================== *)

Module Disk.

(** A file as [readFileSync] and [statSync] see it. *)
Record File : Type := mkFile {
  content : string;
  mtime : Z
}.

Abbreviation Tree := (gmap string File).

(** The clone under [syncRepoDir]: its working tree (without [.git]),
    the tree of its last commit, and how many commits were created. *)
Record Repo : Type := mkRepo {
  worktree : Tree;
  head : gmap string string;
  commits : nat
}.

(** The three directories of [getClaudePaths] and the clock. *)
Record World : Type := mkWorld {
  claudeHome : Tree;
  repo : Repo;
  backupDir : list Tree;
  now : Z
}.

Definition syncRepoDir (w : World) : Tree := worktree (repo w).

(** [fs.writeFileSync(path, text)] into a tree at time [t]. *)
Definition writeFile (t : Z) (path text : string) (tree : Tree) : Tree :=
  <[path := {| content := text; mtime := t |}]> tree.

(** [fs.statSync(path).mtime], or the exception caught as [null]. *)
Definition statMtime (path : string) (tree : Tree) : option Z :=
  mtime <$> tree !! path.

Definition withClaudeHome (w : World) (tree : Tree) : World :=
  {| claudeHome := tree; repo := repo w;
     backupDir := backupDir w; now := now w |}.

Definition withRepo (w : World) (r : Repo) : World :=
  {| claudeHome := claudeHome w; repo := r;
     backupDir := backupDir w; now := now w |}.

Definition withWorktree (w : World) (tree : Tree) : World :=
  withRepo w {| worktree := tree; head := head (repo w);
                commits := commits (repo w) |}.


End Disk.

(* ===================================================================== *)
(** ** conflict-resolver.ts *)
(* ===================================================================== *)

Module Resolver.
Import JS Merger Disk.

(** Modelled from the spec: [ConflictInfo] (types/index.ts is not among the
    sources) with the fields the code reads and writes; [resolved] is
    absent ([None]) until [resolveConflicts] sets it.  The optional base
    content is never read or written by the code and is left out. *)
Record ConflictInfo : Type := mkConflict {
  path : string;
  localContent : string;
  remoteContent : string;
  resolved : option bool
}.

#[global] Instance ConflictInfo_eq_dec : EqDecision ConflictInfo.
Proof. solve_decision. Defined.

(** ['local' | 'remote' | 'merge' | 'skip'] *)
Inductive Choice : Type := UseLocal | UseRemote | AutoMerge | Skip.

Definition isSkip (c : option Choice) : bool :=
  match c with Some Skip => true | _ => false end.

Module ResolveResult.
Record t : Type := mk {
  resolved : bool;
  choice : option Choice;
  content : option string
}.
End ResolveResult.
Abbreviation ResolveResult := ResolveResult.t.

(** [{ ...conflict, resolved: b }] *)
Definition setResolved (conflict : ConflictInfo) (b : bool) : ConflictInfo :=
  {| path := path conflict;
     localContent := localContent conflict;
     remoteContent := remoteContent conflict;
     resolved := Some b |}.

(** [resolveByNewest(conflict)] *)
Definition resolveByNewest (w : World) (conflict : ConflictInfo) :
    ResolveResult :=
  let localMtime := statMtime (path conflict) (claudeHome w) in
  let remoteMtime := statMtime (path conflict) (syncRepoDir w) in
  match localMtime, remoteMtime with
  | Some l, Some r =>
      if (l >? r)%Z then
        ResolveResult.mk true (Some UseLocal) (Some (localContent conflict))
      else
        ResolveResult.mk true (Some UseRemote) (Some (remoteContent conflict))
  | Some _, None =>
      ResolveResult.mk true (Some UseLocal) (Some (localContent conflict))
  | None, Some _ =>
      ResolveResult.mk true (Some UseRemote) (Some (remoteContent conflict))
  | None, None =>
      ResolveResult.mk true (Some UseRemote) (Some (remoteContent conflict))
  end.

Section WithPrompt.
(** [inquirer.prompt]: the answer picked among the offered choices. *)
Variable prompt : ConflictInfo -> list Choice -> Choice.
Variable deepmerge : JSValue -> JSValue -> JSValue.
Variable JSON_parse : string -> option JSValue.
Variable JSON_stringify : JSValue -> string.

(** The list [choices] built by [askUser]. *)
Definition offered (canMerge : bool) : list Choice :=
  [UseLocal; UseRemote] ++ (if canMerge then [AutoMerge] else []) ++ [Skip].

(** [askUser(conflict, canMerge)]; the [default] branch of its [switch]
    answers as 'skip' does and is not reached by a list prompt. *)
Definition askUser (conflict : ConflictInfo) (canMerge : bool) :
    ResolveResult :=
  match prompt conflict (offered canMerge) with
  | UseLocal =>
      ResolveResult.mk true (Some UseLocal) (Some (localContent conflict))
  | UseRemote =>
      ResolveResult.mk true (Some UseRemote) (Some (remoteContent conflict))
  | AutoMerge =>
      ResolveResult.mk true (Some AutoMerge)
        (Some (applyMergeChoice deepmerge JSON_parse JSON_stringify
                 (localContent conflict) (remoteContent conflict)
                 ChooseMerge))
  | Skip => ResolveResult.mk false (Some Skip) None
  end.

(** [resolveConflict(conflict)] *)
Definition resolveConflict (strategy : ConflictStrategy) (w : World)
    (conflict : ConflictInfo) : ResolveResult :=
  let canMerge := Merger.canMerge (path conflict) in
  match strategy with
  | Local =>
      ResolveResult.mk true (Some UseLocal) (Some (localContent conflict))
  | Remote =>
      ResolveResult.mk true (Some UseRemote) (Some (remoteContent conflict))
  | Newest => resolveByNewest w conflict
  | Ask => askUser conflict canMerge
  end.

(** One turn of the loop of [resolveConflicts]. *)
Definition markResolved (result : ResolveResult)
    (conflict : ConflictInfo) : ConflictInfo :=
  if ResolveResult.resolved result &&
     bool_decide (is_Some (ResolveResult.content result)) then
    setResolved conflict true
  else if isSkip (ResolveResult.choice result) then
    setResolved conflict false
  else
    setResolved conflict true.

(** [resolveConflicts(conflicts)] *)
Definition resolveConflicts (strategy : ConflictStrategy) (w : World)
    (conflicts : list ConflictInfo) : list ConflictInfo :=
  map (fun conflict =>
         markResolved (resolveConflict strategy w conflict) conflict)
      conflicts.

End WithPrompt.

(** [if (conflict.resolved)] *)
Definition truthy (b : option bool) : bool :=
  match b with Some true => true | _ => false end.

(** [applyResolutions(conflicts, targetDir)]: every record whose
    [resolved] is truthy has [conflict.remoteContent] written at its
    path. *)
Fixpoint applyResolutions (conflicts : list ConflictInfo) (t : Z)
    (targetDir : Tree) : Tree :=
  match conflicts with
  | [] => targetDir
  | conflict :: rest =>
      let targetDir' :=
        if truthy (resolved conflict) then
          writeFile t (path conflict) (remoteContent conflict) targetDir
        else targetDir in
      applyResolutions rest t targetDir'
  end.

End Resolver.

(* ===================================================================== *)
(** ** sync-engine.ts and the transport of git-manager.ts *)
(* ===================================================================== *)

Module SyncEngine.
Import JS Merger Disk Resolver.

(** Modelled from the spec: [SyncResult] (types/index.ts is not among the
    sources) with the fields the code fills; a field the code leaves out
    is [None]. *)
Record SyncResult : Type := mkSyncResult {
  success : bool;
  pushed : option nat;
  pulled : option nat;
  conflicts : option (list ConflictInfo);
  errors : option (list string);
  message : string
}.

(** [GitManager.hasChanges] after [addAll]: [status().files] is not
    empty, that is, the working tree differs from the last commit. *)
Definition hasChanges (r : Repo) : bool :=
  bool_decide ((content <$> worktree r) ≠ head r).

(** [GitManager.commit] of the staged working tree. *)
Definition commit (r : Repo) : Repo :=
  {| worktree := worktree r;
     head := content <$> worktree r;
     commits := S (commits r) |}.

(** [fs.copyFileSync] of the file at a relative path from one tree into
    another; the callers copy files they have just listed. *)
Definition copyFile (t : Z) (from : Tree) (to : Tree) (file : string) :
    Tree :=
  match from !! file with
  | Some f => writeFile t file (content f) to
  | None => to
  end.

(** The files of a tree, as a directory walk lists them. *)
Definition listFiles (tree : Tree) : list string :=
  map fst (map_to_list tree).

Section WithCollaborators.
(** [config.sync.conflictStrategy] *)
Variable strategy : ConflictStrategy.
(** [FileScanner.shouldSyncFile] *)
Variable shouldSyncFile : string -> bool.
(** [GitManager.pull('origin', branch)]: whether it succeeded, and the
    clone afterwards. *)
Variable gitPull : Repo -> bool * Repo.
(** [GitManager.push('origin', branch)]: whether it succeeded. *)
Variable gitPush : Repo -> bool.
Variable prompt : ConflictInfo -> list Choice -> Choice.
Variable deepmerge : JSValue -> JSValue -> JSValue.
Variable JSON_parse : string -> option JSValue.
Variable JSON_stringify : JSValue -> string.

(** Modelled from the spec: [FileScanner.scan] (file-scanner.ts is not
    among the sources) returns the files of the live local tree that
    the include and exclude rules accept; here as paths relative to
    [claudeHome]. *)
Definition scan (w : World) : list string :=
  List.filter shouldSyncFile (listFiles (claudeHome w)).

(** [createBackup()] *)
Definition createBackup (w : World) : World :=
  let snapshot :=
    foldl (fun tree file => copyFile (now w) (claudeHome w) tree file)
          ∅ (scan w) in
  {| claudeHome := claudeHome w; repo := repo w;
     backupDir := backupDir w ++ [snapshot]; now := now w |}.

(** [copyFilesToRepo(files)] *)
Definition copyFilesToRepo (files : list string) (w : World) : World :=
  withWorktree w
    (foldl (fun tree file => copyFile (now w) (claudeHome w) tree file)
           (syncRepoDir w) files).

(** [push()] *)
Definition push (w : World) : SyncResult * World :=
  let w1 := createBackup w in
  let files := scan w1 in
  if (length files =? 0)%nat then
    ({| success := true; pushed := Some 0%nat; pulled := None;
        conflicts := None; errors := None;
        message := "No files to sync" |}, w1)
  else
    let w2 := copyFilesToRepo files w1 in
    if negb (hasChanges (repo w2)) then
      ({| success := true; pushed := Some 0%nat; pulled := None;
          conflicts := None; errors := None;
          message := "No changes to push" |}, w2)
    else
      let w3 := withRepo w2 (commit (repo w2)) in
      if negb (gitPush (repo w3)) then
        ({| success := false; pushed := None; pulled := None;
            conflicts := None;
            errors := Some ["Failed to push to remote"];
            message := "Failed to push to remote" |}, w3)
      else
        ({| success := true; pushed := Some (length files);
            pulled := None; conflicts := None; errors := None;
            message := "Successfully pushed " +:+ pretty (length files)
                       +:+ " files" |}, w3).

(** [getRepoFiles()] *)
Definition getRepoFiles (w : World) : list string :=
  listFiles (syncRepoDir w).

(** [checkForConflicts(files)] *)
Fixpoint checkForConflicts (files : list string) (w : World) :
    list ConflictInfo :=
  match files with
  | [] => []
  | file :: rest =>
      match claudeHome w !! file, syncRepoDir w !! file with
      | Some l, Some r =>
          if negb (String.eqb (content l) (content r)) then
            {| path := file; localContent := content l;
               remoteContent := content r; resolved := None |}
            :: checkForConflicts rest w
          else checkForConflicts rest w
      | _, _ => checkForConflicts rest w
      end
  end.

(** [applyFilesToClaude(files)] *)
Definition applyFilesToClaude (files : list string) (w : World) : World :=
  withClaudeHome w
    (foldl (fun tree file => copyFile (now w) (syncRepoDir w) tree file)
           (claudeHome w) files).

(** [resolved.filter(c => !c.resolved).length] *)
Definition countUnresolved (resolved : list ConflictInfo) : nat :=
  length (List.filter (fun c => negb (truthy (Resolver.resolved c)))
            resolved).

(** The end of [pull()], once the conflicts are dealt with. *)
Definition finishPull (repoFiles : list string)
    (found : list ConflictInfo) (w : World) : SyncResult * World :=
  let w' := applyFilesToClaude repoFiles w in
  ({| success := true; pushed := None;
      pulled := Some (length repoFiles);
      conflicts := if (0 <? length found)%nat then Some found else None;
      errors := None;
      message := "Successfully pulled " +:+ pretty (length repoFiles)
                 +:+ " files" |}, w').

(** [pull()] *)
Definition pull (w : World) : SyncResult * World :=
  let w1 := createBackup w in
  let (pulledOk, r) := gitPull (repo w1) in
  let w2 := withRepo w1 r in
  if negb pulledOk then
    ({| success := false; pushed := None; pulled := None;
        conflicts := None;
        errors := Some ["Failed to pull from remote"];
        message := "Failed to pull from remote" |}, w2)
  else
    let repoFiles := getRepoFiles w2 in
    let found := checkForConflicts repoFiles w2 in
    if (0 <? length found)%nat then
      let resolved :=
        resolveConflicts prompt deepmerge JSON_parse JSON_stringify
          strategy w2 found in
      let w3 :=
        withClaudeHome w2
          (applyResolutions resolved (now w2) (claudeHome w2)) in
      let unresolved := countUnresolved resolved in
      if (0 <? unresolved)%nat then
        ({| success := false; pushed := None; pulled := None;
            conflicts := None;
            errors := Some [pretty unresolved
                            +:+ " conflicts remain unresolved"];
            message := "Pull completed with unresolved conflicts" |}, w3)
      else finishPull repoFiles found w3
    else finishPull repoFiles found w2.


End WithCollaborators.

End SyncEngine.

(* ===================================================================== *)
(** ** The rest of conflict-resolver.ts *)
(* ===================================================================== *)

Module ResolverRest.
Import JS Merger Disk Resolver.

(** [findConflicts(localDir, remoteDir, files)], the two directories
    given as trees. *)
Fixpoint findConflicts (localDir remoteDir : Tree) (files : list string) :
    list ConflictInfo :=
  match files with
  | [] => []
  | file :: rest =>
      match localDir !! file, remoteDir !! file with
      | None, None => findConflicts localDir remoteDir rest
      | None, Some _ => findConflicts localDir remoteDir rest
      | Some _, None => findConflicts localDir remoteDir rest
      | Some l, Some r =>
          if negb (String.eqb (content l) (content r)) then
            {| path := file; localContent := content l;
               remoteContent := content r; resolved := None |}
            :: findConflicts localDir remoteDir rest
          else findConflicts localDir remoteDir rest
      end
  end.

(** The text that the loop of [applyResolutions] leaves at a path: the
    [remoteContent] of the last record with that path whose [resolved] is
    truthy, if there is one. *)
Fixpoint lastWrite (conflicts : list ConflictInfo) (p : string) :
    option string :=
  match conflicts with
  | [] => None
  | conflict :: rest =>
      match lastWrite rest p with
      | Some text => Some text
      | None =>
          if truthy (resolved conflict) && String.eqb (path conflict) p
          then Some (remoteContent conflict)
          else None
      end
  end.

End ResolverRest.

(* ===================================================================== *)
(** ** The rest of sync-engine.ts and the backup command *)
(* ===================================================================== *)

Module EngineRest.
Import JS Merger Disk Resolver SyncEngine.


(** [pullResult.errors?.length] as a condition. *)
Definition hasErrors (r : SyncResult) : bool :=
  match errors r with
  | Some (_ :: _) => true
  | _ => false
  end.

Section WithCollaborators.
Variable strategy : ConflictStrategy.
Variable shouldSyncFile : string -> bool.
Variable gitPull : Repo -> bool * Repo.
Variable gitPush : Repo -> bool.
Variable prompt : ConflictInfo -> list Choice -> Choice.
Variable deepmerge : JSValue -> JSValue -> JSValue.
Variable JSON_parse : string -> option JSValue.
Variable JSON_stringify : JSValue -> string.

(** [sync()] *)
Definition sync (w : World) : SyncResult * World :=
  let (pullResult, w1) :=
    pull strategy shouldSyncFile gitPull prompt deepmerge JSON_parse
      JSON_stringify w in
  if negb (success pullResult) && hasErrors pullResult then (pullResult, w1)
  else
    let (pushResult, w2) := push shouldSyncFile gitPush w1 in
    if negb (success pushResult) then (pushResult, w2)
    else
      ({| success := true; pushed := pushed pushResult;
          pulled := pulled pullResult; conflicts := None; errors := None;
          message := "Sync completed successfully" |}, w2).

End WithCollaborators.

End EngineRest.

Module Backups.

(** An entry of [readdirSync(backupDir, { withFileTypes: true })], with
    the [mtime] of [statSync] and the files [collectFiles] finds in it. *)
Record DirEntry : Type := mkDirEntry {
  name : string;
  isDirectory : bool;
  mtime : Z;
  contents : list string
}.

(** Modelled from the spec: [BackupInfo] (types/index.ts is not among the
    sources) as [listBackups] fills it; [path] is the entry's name under
    [backupDir]. *)
Record BackupInfo : Type := mkBackupInfo {
  timestamp : Z;
  path : string;
  files : list string
}.

(** The loop of [listBackups] over the directory entries. *)
Fixpoint collectBackups (entries : list DirEntry) : list BackupInfo :=
  match entries with
  | [] => []
  | entry :: rest =>
      if isDirectory entry && String.prefix "backup-" (name entry) then
        {| timestamp := mtime entry; path := name entry;
           files := contents entry |} :: collectBackups rest
      else collectBackups rest
  end.

(** [backups.sort((a, b) => b.timestamp - a.timestamp)]: the sort of an
    array is stable, so its result is the one of this insertion sort,
    which puts a backup before the ones that follow it in the array and
    are not newer. *)
Fixpoint insertNewestFirst (b : BackupInfo) (sorted : list BackupInfo) :
    list BackupInfo :=
  match sorted with
  | [] => [b]
  | x :: rest =>
      if (timestamp x <=? timestamp b)%Z then b :: x :: rest
      else x :: insertNewestFirst b rest
  end.

Fixpoint sortNewestFirst (backups : list BackupInfo) : list BackupInfo :=
  match backups with
  | [] => []
  | b :: rest => insertNewestFirst b (sortNewestFirst rest)
  end.

(** [listBackups()]; [None] when [backupDir] does not exist. *)
Definition listBackups (dir : option (list DirEntry)) : list BackupInfo :=
  match dir with
  | None => []
  | Some entries => sortNewestFirst (collectBackups entries)
  end.

(** [array.slice(start)]; [None] is [NaN]. *)
Definition slice {A} (start : option Z) (l : list A) : list A :=
  let len := Z.of_nat (length l) in
  let from :=
    match start with
    | None => 0%Z
    | Some k => if (k <? 0)%Z then Z.max (len + k) 0 else Z.min k len
    end in
  drop (Z.to_nat from) l.

(** The selection of [backup clean --keep <keep>]: the backups to delete;
    [keep] is the result of [parseInt], [None] when it is [NaN]. *)
Definition toDelete (keep : option Z) (backups : list BackupInfo) :
    list BackupInfo :=
  let enough :=
    match keep with
    | Some k => (Z.of_nat (length backups) <=? k)%Z
    | None => false
    end in
  if enough then [] else slice keep backups.

(** The order of [listBackups]: the first backup is at least as recent as
    the second. *)
Definition newerOrSame (a b : BackupInfo) : Prop :=
  (timestamp b <= timestamp a)%Z.

End Backups.

(* ===================================================================== *)
(** ** Sample documents and worlds *)
(* ===================================================================== *)

Module Samples.
Import JS Merger Disk Resolver.

(** The documents of the test "should merge when both changed different
    fields" of merger.test.ts. *)
Definition base_ab : JSValue := JObject [("a", JNum 1); ("b", JNum 1)].
Definition local_ab : JSValue := JObject [("a", JNum 2); ("b", JNum 1)].
Definition remote_ab : JSValue := JObject [("a", JNum 1); ("b", JNum 2)].

(** The documents of the test "should protect sensitive fields". *)
Definition settings_local : JSValue :=
  JObject [("apiKey", JStr "local-key"); ("theme", JStr "dark")].
Definition settings_remote : JSValue :=
  JObject [("apiKey", JStr "remote-key"); ("theme", JStr "light")].


(** A parser that knows one document. *)
Definition parse_one (text : string) : option JSValue :=
  if String.eqb text "1" then Some (JNum 1) else None.

Definition print_null (v : JSValue) : string := "null".

Definition file (text : string) (t : Z) : File :=
  {| content := text; mtime := t |}.

(** A live tree and a mirror that disagree on two files; [a.json] is
    newer in the mirror, [b.json] is newer in the live tree. *)
Definition home_ab : Tree :=
  <["a.json" := file "local a" 10]> (<["b.json" := file "local b" 10]> ∅).
Definition mirror_ab : Tree :=
  <["a.json" := file "remote a" 20]> (<["b.json" := file "remote b" 5]> ∅).
Definition world_ab : World :=
  {| claudeHome := home_ab;
     repo := {| worktree := mirror_ab; head := content <$> mirror_ab;
                commits := 1 |};
     backupDir := [];
     now := 100 |}.

Definition conflict_a : ConflictInfo :=
  {| path := "a.json"; localContent := "local a";
     remoteContent := "remote a"; resolved := None |}.
Definition conflict_b : ConflictInfo :=
  {| path := "b.json"; localContent := "local b";
     remoteContent := "remote b"; resolved := None |}.

(** A user who keeps the local [a.json] and skips [b.json]. *)
Definition prompt_skip_b (c : ConflictInfo) (choices : list Choice) :
    Choice :=
  if String.eqb (path c) "b.json" then Skip else UseLocal.

(** A transport whose pull succeeds and brings nothing new. *)
Definition pull_nothing (r : Repo) : bool * Repo := (true, r).

Definition sync_all (file : string) : bool := true.

Definition take_remote (a b : JSValue) : JSValue := b.

(** Two files of which the second is not JSON. *)
Definition disk_broken_remote : gmap string string :=
  <["local.json" := "1"]> (<["remote.json" := "{oops"]> ∅).

End Samples.

Module MoreSamples.
Import JS Merger Disk Resolver Backups.

(** A transport whose pull fails and leaves the clone as it is. *)
Definition pull_fails (r : Repo) : bool * Repo := (false, r).

(** A user who keeps the local side of every conflict. *)
Definition prompt_keep_local (c : ConflictInfo) (choices : list Choice) :
    Choice :=
  UseLocal.

(** A backup directory with three backups, a stray file and a directory
    that is no backup. *)
Definition backup_entries : list DirEntry :=
  [ {| name := "backup-1"; isDirectory := true; mtime := 10;
       contents := ["a.json"] |};
    {| name := "notes.txt"; isDirectory := false; mtime := 50;
       contents := [] |};
    {| name := "backup-3"; isDirectory := true; mtime := 30;
       contents := ["a.json"; "b.json"] |};
    {| name := "tmp"; isDirectory := true; mtime := 40; contents := [] |};
    {| name := "backup-2"; isDirectory := true; mtime := 20;
       contents := ["b.json"] |} ].

End MoreSamples.

(* ===================================================================== *)
(** ** Properties of the merge engine *)
(* ===================================================================== *)

Module MergerFacts.
Import JS Merger.

Lemma wf_node a ps :
  wf (JNode a ps) <-> NoDup (map fst ps) /\ Forall (fun kv => wf (snd kv)) ps.
Proof.
  cbn [wf]. split; intros [Hnd Hall]; split; trivial.
  - induction ps as [|kv ps IH]; constructor.
    + apply Hall.
    + apply IH. * now inversion Hnd. * apply Hall.
  - induction Hall as [|kv ps Hkv Hall IH]; [exact I|]. split; [exact Hkv|].
    apply IH. now inversion Hnd.
Qed.

Lemma get_Some_In k v ps : get k ps = Some v -> In (k, v) ps.
Proof.
  induction ps as [|[k' v'] ps IH]; cbn; [discriminate|].
  destruct (String.eqb_spec k' k) as [->|Hne].
  - intros [= ->]. now left.
  - intros H. right. auto.
Qed.


Lemma In_get_NoDup k v ps :
  NoDup (map fst ps) -> In (k, v) ps -> get k ps = Some v.
Proof.
  induction ps as [|[k' v'] ps IH]; cbn; [tauto|].
  intros Hnd [Heq|Hin].
  - injection Heq as -> ->. now rewrite String.eqb_refl.
  - apply NoDup_cons in Hnd as [Hnotin Hnd].
    destruct (String.eqb_spec k' k) as [->|Hne].
    + exfalso. apply Hnotin. apply list_elem_of_In.
      change k with (fst (k, v)). now apply in_map.
    + auto.
Qed.



(** The merge of two containers, unfolded once. *)
Lemma deepMerge_nodes st la lp ra rp p acc :
  deepMergeWithConflicts st (JNode la lp) (JNode ra rp) p acc =
  (JNode la (fst (mergeLocalKeys (deepMergeWithConflicts st) rp p lp acc)
             ++ remoteOnly lp rp),
   snd (mergeLocalKeys (deepMergeWithConflicts st) rp p lp acc)).
Proof.
  cbn [deepMergeWithConflicts isPrimitive andb orb props].
  now destruct (mergeLocalKeys _ rp p lp acc).
Qed.

(** The merge when a side is a primitive. *)
Lemma deepMerge_primitive st l r p acc :
  isPrimitive l || isPrimitive r = true ->
  deepMergeWithConflicts st l r p acc =
  if strictEq l r then (l, acc)
  else (resolveConflict st l r p, acc ++ [Str.join "." p]).
Proof.
  destruct l, r; cbn; try discriminate; intros _; try reflexivity.
  - now destruct (Bool.eqb b b0).
  - now destruct (Z.eqb n n0).
  - now destruct (String.eqb s s0).
Qed.

(** The array [conflicts] only grows at its end, by entries that do not
    depend on what it held. *)
Lemma mergeLocalKeys_frame rec rp p lp :
  Forall (fun kv => forall r q acc,
            rec (snd kv) r q acc =
            (fst (rec (snd kv) r q []), acc ++ snd (rec (snd kv) r q []))) lp ->
  forall acc,
    mergeLocalKeys rec rp p lp acc =
    (fst (mergeLocalKeys rec rp p lp []),
     acc ++ snd (mergeLocalKeys rec rp p lp [])).
Proof.
  induction 1 as [|[k lv] lp Hkv _ IH]; intros acc; cbn.
  - now rewrite app_nil_r.
  - cbn in Hkv. destruct (get k rp) as [rv|].
    + rewrite (Hkv rv (p ++ [k]) acc).
      rewrite (IH (acc ++ _)).
      destruct (rec lv rv (p ++ [k]) []) as [v c1] eqn:E1. cbn.
      rewrite (IH c1).
      destruct (mergeLocalKeys rec rp p lp []) as [rest c2]. cbn.
      now rewrite app_assoc.
    + rewrite (IH acc).
      now destruct (mergeLocalKeys rec rp p lp []) as [rest c2].
Qed.

Lemma deepMerge_frame st l : forall r p acc,
  deepMergeWithConflicts st l r p acc =
  (fst (deepMergeWithConflicts st l r p []),
   acc ++ snd (deepMergeWithConflicts st l r p [])).
Proof.
  induction l as [| | | |la lp IH] using JSValue_ind; intros r p acc;
    try (rewrite !(deepMerge_primitive st _ r p) by reflexivity;
         destruct (strictEq _ r); cbn; now rewrite ?app_nil_r).
  destruct r as [| | | |ra rp];
    try (rewrite !(deepMerge_primitive st (JNode la lp) _ p) by reflexivity;
         cbn; reflexivity).
  rewrite !deepMerge_nodes. cbn.
  now rewrite (mergeLocalKeys_frame _ rp p lp IH acc).
Qed.





Lemma eqb_eq a : forall b, eqb a b = true <-> a = b.
Proof.
  induction a as [| | | |fa pa IH] using JSValue_ind; intros [| | | |fb pb];
    cbn [eqb]; try (split; [discriminate|congruence]); try tauto.
  - rewrite Bool.eqb_true_iff. split; congruence.
  - rewrite Z.eqb_eq. split; congruence.
  - rewrite String.eqb_eq. split; congruence.
  - rewrite andb_true_iff, Bool.eqb_true_iff.
    match goal with |- _ /\ ?f pa pb = true <-> _ => set (all2 := f) end.
    assert (Hall : forall pb, all2 pa pb = true <-> pa = pb).
    { clear pb. induction IH as [|[k v] pa Hv _ IHpa]; intros [|[k' v'] pb];
        cbn; try (split; [discriminate|congruence]); try tauto.
      rewrite !andb_true_iff, String.eqb_eq, (Hv v'), IHpa. cbn.
      split; [intros [[-> ->] ->]; reflexivity|intros [= -> -> ->]; auto]. }
    rewrite Hall. split; [intros [-> ->]; reflexivity|intros [= -> ->]; auto].
Qed.

Lemma strictEq_false a b : strictEq a b = false <-> a <> b.
Proof.
  unfold strictEq. rewrite <- (eqb_eq a b).
  destruct (eqb a b); split; congruence.
Qed.

Lemma mergeLocalKeys_conflicts rec rp p lp :
  Forall (fun kv => forall r q acc,
            rec (snd kv) r q acc =
            (fst (rec (snd kv) r q []), acc ++ snd (rec (snd kv) r q []))) lp ->
  forall s,
    In s (snd (mergeLocalKeys rec rp p lp [])) <->
    exists k lv rv, In (k, lv) lp /\ get k rp = Some rv /\
                    In s (snd (rec lv rv (p ++ [k]) [])).
Proof.
  induction 1 as [|[k lv] lp Hkv Hall IH]; intros s; cbn.
  - split; [tauto|]. intros (? & ? & ? & [] & _).
  - destruct (get k rp) as [rv|] eqn:Hget.
    + destruct (rec lv rv (p ++ [k]) []) as [v c1] eqn:E1.
      rewrite (mergeLocalKeys_frame rec rp p lp Hall c1).
      destruct (mergeLocalKeys rec rp p lp []) as [rest c2] eqn:E2.
      cbn in *. rewrite in_app_iff, IH. split.
      * intros [Hin|(k' & lv' & rv' & Hin & Hg & Hs)].
        -- exists k, lv, rv. rewrite E1. auto.
        -- exists k', lv', rv'. auto.
      * intros (k' & lv' & rv' & [Heq|Hin] & Hg & Hs).
        -- injection Heq as <- <-. rewrite Hget in Hg. injection Hg as <-.
           rewrite E1 in Hs. now left.
        -- right. exists k', lv', rv'. auto.
    + destruct (mergeLocalKeys rec rp p lp []) as [rest c2] eqn:E2.
      cbn in *. rewrite IH. split.
      * intros (k' & lv' & rv' & Hin & Hg & Hs). exists k', lv', rv'. auto.
      * intros (k' & lv' & rv' & [Heq|Hin] & Hg & Hs).
        -- injection Heq as <- <-. congruence.
        -- exists k', lv', rv'. auto.
Qed.

Lemma conflictSite_primitive l r q :
  isPrimitive l || isPrimitive r = true ->
  conflictSite l r q <-> q = [] /\ l <> r.
Proof.
  intros Hp. split.
  - intros (a & b & Ha & Hb & Hab & Hne). destruct q as [|k q].
    + cbn in Ha, Hb. injection Ha as <-. injection Hb as <-. auto.
    + exfalso. destruct l, r; cbn in *; try discriminate.
  - intros [-> Hne]. exists l, r. cbn. auto.
Qed.

(** The recorded conflicts are the joined paths of the conflict sites. *)
Lemma conflicts_sites st l : forall r p c,
  wf l ->
  In c (snd (deepMergeWithConflicts st l r p [])) <->
  exists q, c = Str.join "." (p ++ q) /\ conflictSite l r q.
Proof.
  assert (Hprim : forall l r p s, isPrimitive l || isPrimitive r = true ->
    In s (snd (deepMergeWithConflicts st l r p [])) <->
    exists q, s = Str.join "." (p ++ q) /\ conflictSite l r q).
  { intros l0 r p s Hp. rewrite (deepMerge_primitive st l0 r p []) by exact Hp.
    destruct (strictEq l0 r) eqn:E; cbn.
    - apply eqb_eq in E. split; [tauto|].
      intros (q & _ & Hs). apply conflictSite_primitive in Hs as [_ Hne]; tauto.
    - apply strictEq_false in E. split.
      + intros [<-|[]]. exists []. rewrite app_nil_r. split; [reflexivity|].
        now apply conflictSite_primitive.
      + intros (q & -> & Hs).
        apply conflictSite_primitive in Hs as [-> _]; trivial.
        rewrite app_nil_r. now left. }
  induction l as [| | | |la lp IH] using JSValue_ind; intros r p c Hwf;
    try (apply Hprim; reflexivity).
  destruct r as [| | | |ra rp]; try (apply Hprim; reflexivity).
  apply wf_node in Hwf as [Hnd Hwfs].
  rewrite deepMerge_nodes. cbn [snd].
  rewrite (mergeLocalKeys_conflicts _ rp p lp).
  2:{ apply Forall_forall. intros kv _ r q acc. apply deepMerge_frame. }
  rewrite Forall_forall in IH, Hwfs. split.
  - intros (k & lv & rv & Hin & Hg & Hs).
    apply (IH (k, lv)) in Hs;
      [|now apply list_elem_of_In
       |apply (Hwfs (k, lv)); now apply list_elem_of_In].
    destruct Hs as (q & -> & a & b & Ha & Hb & Hab & Hne).
    exists (k :: q). split; [now rewrite <- app_assoc|].
    exists a, b. cbn. rewrite (In_get_NoDup k lv lp Hnd Hin), Hg. auto.
  - intros (q & -> & a & b & Ha & Hb & Hab & Hne).
    destruct q as [|k q]; cbn in Ha, Hb.
    + injection Ha as <-. injection Hb as <-. discriminate.
    + destruct (get k lp) as [lv|] eqn:Hgl; [|discriminate].
      destruct (get k rp) as [rv|] eqn:Hgr; [|discriminate].
      exists k, lv, rv. split; [now apply get_Some_In|]. split; [exact Hgr|].
      apply (IH (k, lv)).
      * apply list_elem_of_In. now apply get_Some_In.
      * apply (Hwfs (k, lv)). apply list_elem_of_In. now apply get_Some_In.
      * exists q. split; [now rewrite <- app_assoc|]. exists a, b. auto.
Qed.

(** The fields of the outcome of [mergeJson]. *)
Lemma mergeJson_fields st l r :
  mergeJson st l r =
  {| result := fst (deepMergeWithConflicts st l r [] []);
     conflicts := snd (deepMergeWithConflicts st l r [] []);
     merged := (length (snd (deepMergeWithConflicts st l r [] [])) =? 0)%nat
               || negb (isAsk st) |}.
Proof. unfold mergeJson. now destruct (deepMergeWithConflicts st l r [] []). Qed.

(** When neither side changed the document, the base is returned. *)
Lemma threeWayMerge_unchanged st base local remote :
  local = base -> remote = base ->
  threeWayMerge st base local remote =
  {| result := base; conflicts := []; merged := true |}.
Proof.
  intros -> ->. unfold threeWayMerge, sameJson.
  now rewrite (proj2 (eqb_eq base base) eq_refl).
Qed.

(** When only the remote document differs from the base, it is returned
    whole, without conflicts. *)
Lemma threeWayMerge_only_remote st base local remote :
  local = base -> remote <> base ->
  threeWayMerge st base local remote =
  {| result := remote; conflicts := []; merged := true |}.
Proof.
  intros -> Hr. unfold threeWayMerge, sameJson.
  rewrite (proj2 (eqb_eq base base) eq_refl).
  apply strictEq_false in Hr. unfold strictEq in Hr. now rewrite Hr.
Qed.

(** When only the local document differs from the base, it is returned
    whole, without conflicts. *)
Lemma threeWayMerge_only_local st base local remote :
  local <> base -> remote = base ->
  threeWayMerge st base local remote =
  {| result := local; conflicts := []; merged := true |}.
Proof.
  intros Hl ->. unfold threeWayMerge, sameJson.
  rewrite (proj2 (eqb_eq base base) eq_refl).
  apply strictEq_false in Hl. unfold strictEq in Hl. now rewrite Hl.
Qed.

(** When both documents differ from the base, the base plays no part:
    the outcome is the two-way merge of local and remote. *)
Lemma threeWayMerge_both_changed st base local remote :
  local <> base -> remote <> base ->
  threeWayMerge st base local remote =
  {| result := fst (deepMergeWithConflicts st local remote [] []);
     conflicts := snd (deepMergeWithConflicts st local remote [] []);
     merged := (length (snd (deepMergeWithConflicts st local remote [] []))
                =? 0)%nat |}.
Proof.
  intros Hl Hr. unfold threeWayMerge, sameJson.
  apply strictEq_false in Hl, Hr. unfold strictEq in Hl, Hr.
  rewrite Hl, Hr. cbn.
  now destruct (deepMergeWithConflicts st local remote [] []).
Qed.

End MergerFacts.

Module MergerClaims.
Import JS Merger MergerFacts Samples.

(* ------------------------------------------------------------------- *)
(** *** The [merged] flag of the two-way merge *)

(** C3, as stated, fails: under the 'remote' strategy the two-way merge
    of [{a:1}] and [{a:2}] reports the conflicting key [a] and still
    returns [merged = true]. *)
Lemma mergeJson_merged_with_conflicts :
  ~ (merged (mergeJson Remote (JObject [("a", JNum 1)])
               (JObject [("a", JNum 2)])) = true <->
     conflicts (mergeJson Remote (JObject [("a", JNum 1)])
                  (JObject [("a", JNum 2)])) = []).
Proof. cbn. intros [H _]. specialize (H eq_refl). discriminate. Qed.

(** C3, amended: for every local, remote and strategy, [merged] is true
    exactly when the conflicting-keys list is empty or the strategy is
    not 'ask'; under 'ask' it is true exactly when the list is empty. *)
Theorem mergeJson_merged_flag st l r :
  (merged (mergeJson st l r) = true <->
   conflicts (mergeJson st l r) = [] \/ st <> Ask) /\
  (merged (mergeJson Ask l r) = true <->
   conflicts (mergeJson Ask l r) = []).
Proof.
  rewrite !mergeJson_fields. cbn [merged conflicts].
  split.
  - destruct (snd (deepMergeWithConflicts st l r [] [])) as [|c cs];
      destruct st; cbn; split; auto; try discriminate; try congruence;
      intros [H|H]; congruence.
  - destruct (snd (deepMergeWithConflicts Ask l r [] [])) as [|c cs];
      cbn; split; auto; discriminate.
Qed.

(* ------------------------------------------------------------------- *)
(** *** Three-way merge *)

(** C4 on the code: with base [{a:1,b:1}], local [{a:2,b:1}] and remote
    [{a:1,b:2}] each leaf changed on one side only, and yet the
    three-way merge reports both leaves as conflicts and keeps the
    remote value 1 at [a], where the local change 2 was expected. *)
Theorem threeWayMerge_one_sided_leaves_conflict :
  threeWayMerge Ask base_ab local_ab remote_ab =
  {| result := JObject [("a", JNum 1); ("b", JNum 2)];
     conflicts := ["a"; "b"];
     merged := false |}.
Proof. reflexivity. Qed.

(* ------------------------------------------------------------------- *)
(** *** Disjoint key sets *)



(* ------------------------------------------------------------------- *)
(** *** Containers of different kinds *)



End MergerClaims.

Module SettingsAndFiles.
Import JS Merger MergerFacts Samples.

(* ------------------------------------------------------------------- *)
(** *** [mergeSettings] *)

Lemma settingsConflicts_spec lp rp : forall acc c,
  In c (settingsConflicts lp rp acc) <->
  In c acc \/
  exists lv rv, In (c, rv) rp /\ get c lp = Some lv /\
                sameJson lv rv = false /\ isSensitive c = false.
Proof.
  induction rp as [|[k rv] rp IH]; intros acc c;
    cbn [settingsConflicts In].
  - split; [auto|]. intros [H|(? & ? & [] & _)]. exact H.
  - rewrite IH. clear IH. split.
    + intros [Hin|(lv & rv' & Hin & Hrest)].
      * destruct (get k lp) as [lv|] eqn:Hg; [|now left].
        destruct (sameJson lv rv) eqn:Hs; cbn [negb] in Hin; [now left|].
        destruct (isSensitive k) eqn:Hk; cbn [negb] in Hin; [now left|].
        apply in_app_iff in Hin as [Hin|[<-|[]]]; [now left|].
        right. exists lv, rv. auto.
      * right. exists lv, rv'. tauto.
    + intros [Hin|(lv & rv' & [Heq|Hin] & Hg & Hs & Hk)].
      * left. destruct (get k lp) as [lv|]; [|exact Hin].
        destruct (negb (sameJson lv rv)); [|exact Hin].
        destruct (negb (isSensitive k)); [|exact Hin].
        apply in_app_iff. now left.
      * injection Heq as -> ->. left. rewrite Hg, Hs, Hk. cbn [negb].
        apply in_app_iff. right. now left.
      * right. exists lv, rv'. auto.
Qed.

(** [mergeSettings] always answers [merged = true]. *)
Lemma mergeSettings_merged dm local remote :
  merged (mergeSettings dm local remote) = true.
Proof. reflexivity. Qed.

(** A key that the code's own test finds sensitive is never reported. *)
Lemma mergeSettings_sensitive_hidden dm local remote key :
  isSensitive key = true ->
  ~ In key (conflicts (mergeSettings dm local remote)).
Proof.
  intros Hs Hin. cbn in Hin.
  apply settingsConflicts_spec in Hin as [[]|(lv & rv & _ & _ & _ & Hk)].
  congruence.
Qed.

(** The four field names written in lower case do hide a key whose
    lowercased name contains them. *)
Lemma lowercase_fields_sensitive key field :
  In field ["token"; "secret"; "password"; "credential"] ->
  Str.includes (Str.toLowerCase key) field = true ->
  isSensitive key = true.
Proof.
  intros Hin Hinc. unfold isSensitive. apply existsb_exists.
  exists field. split; [|exact Hinc].
  cbn in *. tauto.
Qed.

(** C9 on the code: the key [apiKey], whose lowercased name contains
    ['apikey'], differs between the two settings objects and is reported
    in the conflicts list, while [merged] is true: the lowercased key is
    compared with the mixed-case names ['apiKey'] and ['apiToken'],
    which it never contains. *)
Theorem mergeSettings_apiKey_reported dm :
  Str.includes (Str.toLowerCase "apiKey") "apikey" = true /\
  isSensitive "apiKey" = false /\
  conflicts (mergeSettings dm settings_local settings_remote)
  = ["apiKey"; "theme"] /\
  merged (mergeSettings dm settings_local settings_remote) = true.
Proof. repeat split. Qed.

(* ------------------------------------------------------------------- *)
(** *** [mergeFiles] *)

(** C8: when both files exist and the content of either one does not
    parse as JSON, [mergeFiles] returns (no exception leaves it) the
    conflict outcome with [result = null] and [merged = false], and
    writes nothing. *)
Theorem mergeFiles_parse_failure parse print st
    (localPath remotePath outputPath : string)
    (disk : gmap string string) (localContent remoteContent : string) :
  disk !! localPath = Some localContent ->
  disk !! remotePath = Some remoteContent ->
  parse localContent = None \/ parse remoteContent = None ->
  mergeFiles parse print st localPath remotePath outputPath disk =
  (Returns {| result := JNull; conflicts := [localPath]; merged := false |},
   disk).
Proof.
  intros Hl Hr Hfail. unfold mergeFiles. rewrite Hl, Hr.
  destruct (parse localContent) as [lj|]; [|reflexivity].
  destruct Hfail as [Hfail|Hfail]; [discriminate|].
  now rewrite Hfail.
Qed.

Lemma mergeFiles_parse_failure_witness :
  mergeFiles parse_one print_null Ask "local.json" "remote.json" "out.json"
    disk_broken_remote =
  (Returns {| result := JNull; conflicts := ["local.json"];
              merged := false |},
   disk_broken_remote).
Proof.
  apply (mergeFiles_parse_failure parse_one print_null Ask
           "local.json" "remote.json" "out.json" disk_broken_remote
           "1" "{oops").
  - vm_compute. reflexivity.
  - vm_compute. reflexivity.
  - right. reflexivity.
Defined.

End SettingsAndFiles.

(* ===================================================================== *)
(** ** Properties of the conflict resolver *)
(* ===================================================================== *)

Module ResolverFacts.
Import JS Merger Disk Resolver.

(** A record that is not applied leaves every file as it was. *)
Lemma applyResolutions_untouched conflicts t : forall tree p,
  (forall c, In c conflicts -> truthy (resolved c) = true -> path c <> p) ->
  applyResolutions conflicts t tree !! p = tree !! p.
Proof.
  induction conflicts as [|c rest IH]; intros tree p Hother; cbn;
    [reflexivity|].
  rewrite IH by (intros c' Hin; apply Hother; now right).
  destruct (truthy (resolved c)) eqn:Ht; [|reflexivity].
  unfold writeFile. apply lookup_insert_ne. apply Hother; [now left|exact Ht].
Qed.

(** What is written for an applied record is its [remoteContent]. *)
Lemma applyResolutions_writes_remote conflicts t : forall tree c,
  NoDup (map path conflicts) -> In c conflicts ->
  truthy (resolved c) = true ->
  applyResolutions conflicts t tree !! path c =
  Some {| content := remoteContent c; mtime := t |}.
Proof.
  induction conflicts as [|c0 rest IH]; intros tree c Hnd Hin Ht;
    [destruct Hin|].
  apply NoDup_cons in Hnd as [Hfresh Hnd]. cbn.
  destruct Hin as [->|Hin].
  - rewrite Ht. rewrite applyResolutions_untouched.
    + unfold writeFile. apply lookup_insert_eq.
    + intros c' Hin' _ Heq. apply Hfresh. rewrite <- Heq.
      apply list_elem_of_In. now apply in_map.
  - now apply IH.
Qed.

Lemma resolveConflicts_paths prompt dm parse print st w conflicts :
  map path (resolveConflicts prompt dm parse print st w conflicts) =
  map path conflicts.
Proof.
  unfold resolveConflicts. rewrite map_map. apply map_ext.
  intros c. unfold markResolved.
  destruct (ResolveResult.resolved _ && _); [reflexivity|].
  now destruct (isSkip (ResolveResult.choice _)).
Qed.

(** Under 'ask', a record is left unresolved exactly when the answer is
    'skip'. *)
Lemma markResolved_ask prompt dm parse print w c :
  markResolved (resolveConflict prompt dm parse print Ask w c) c =
  setResolved c
    (if isSkip (Some (prompt c (offered (canMerge (path c)))))
     then false else true).
Proof.
  unfold resolveConflict, askUser, markResolved.
  now destruct (prompt c (offered (canMerge (path c)))).
Qed.

End ResolverFacts.

Module ResolverClaims.
Import JS Merger Disk Resolver ResolverFacts Samples.

(** C6: under the 'newest' strategy the outcome is always
    [resolved = true] with the content of the selected side; when both
    modification times are known the later side is selected, when one is
    known that side is selected, and when none is known remote is
    selected. *)
Theorem newest_selects_later_side prompt dm parse print w c :
  let r := resolveConflict prompt dm parse print Newest w c in
  ResolveResult.resolved r = true /\
  ((ResolveResult.choice r = Some UseLocal /\
    ResolveResult.content r = Some (localContent c)) \/
   (ResolveResult.choice r = Some UseRemote /\
    ResolveResult.content r = Some (remoteContent c))) /\
  (forall l m,
      statMtime (path c) (claudeHome w) = Some l ->
      statMtime (path c) (syncRepoDir w) = Some m ->
      ((l > m)%Z -> ResolveResult.choice r = Some UseLocal /\
                    ResolveResult.content r = Some (localContent c)) /\
      ((m > l)%Z -> ResolveResult.choice r = Some UseRemote /\
                    ResolveResult.content r = Some (remoteContent c))) /\
  (forall l,
      statMtime (path c) (claudeHome w) = Some l ->
      statMtime (path c) (syncRepoDir w) = None ->
      ResolveResult.choice r = Some UseLocal /\
      ResolveResult.content r = Some (localContent c)) /\
  (forall m,
      statMtime (path c) (claudeHome w) = None ->
      statMtime (path c) (syncRepoDir w) = Some m ->
      ResolveResult.choice r = Some UseRemote /\
      ResolveResult.content r = Some (remoteContent c)) /\
  (statMtime (path c) (claudeHome w) = None ->
   statMtime (path c) (syncRepoDir w) = None ->
   ResolveResult.choice r = Some UseRemote /\
   ResolveResult.content r = Some (remoteContent c)).
Proof.
  cbn [resolveConflict]. unfold resolveByNewest.
  destruct (statMtime (path c) (claudeHome w)) as [l|];
    destruct (statMtime (path c) (syncRepoDir w)) as [m|];
    try destruct (Z.gtb_spec l m) as [Hgt|Hle]; cbn;
    repeat first [progress intros | split];
    simplify_eq; try reflexivity; try (exfalso; lia);
    first [left; split; reflexivity | right; split; reflexivity].
Qed.

Lemma newest_selects_later_side_witness :
  ResolveResult.content
    (resolveConflict prompt_skip_b take_remote parse_one print_null
       Newest world_ab conflict_b) = Some "local b" /\
  ResolveResult.content
    (resolveConflict prompt_skip_b take_remote parse_one print_null
       Newest world_ab conflict_a) = Some "remote a".
Proof.
  split.
  - destruct (newest_selects_later_side prompt_skip_b take_remote parse_one
                print_null world_ab conflict_b)
      as (_ & _ & Hboth & _).
    destruct (Hboth 10%Z 5%Z) as [Hlocal _];
      [vm_compute; reflexivity|vm_compute; reflexivity|].
    apply Hlocal. lia.
  - destruct (newest_selects_later_side prompt_skip_b take_remote parse_one
                print_null world_ab conflict_a)
      as (_ & _ & Hboth & _).
    destruct (Hboth 10%Z 20%Z) as [_ Hremote];
      [vm_compute; reflexivity|vm_compute; reflexivity|].
    apply Hremote. lia.
Defined.

(** C1 on the code: under the 'local' strategy the resolution of the
    conflict on [a.json] chooses the local content and the record ends
    with [resolved = true]; what [applyResolutions] writes into the live
    tree for that path is the remote content, and so is the content of
    the file after the whole pull. *)
Theorem local_choice_overwritten_by_remote :
  ResolveResult.choice
    (resolveConflict prompt_skip_b take_remote parse_one print_null
       Local world_ab conflict_a) = Some UseLocal /\
  ResolveResult.content
    (resolveConflict prompt_skip_b take_remote parse_one print_null
       Local world_ab conflict_a) = Some "local a" /\
  resolveConflicts prompt_skip_b take_remote parse_one print_null
    Local world_ab [conflict_a] = [setResolved conflict_a true] /\
  content <$> (applyResolutions [setResolved conflict_a true] 100 home_ab
               !! "a.json") = Some "remote a" /\
  content <$> (claudeHome
                 (snd (SyncEngine.pull Local sync_all pull_nothing
                         prompt_skip_b take_remote parse_one print_null
                         world_ab)) !! "a.json") = Some "remote a".
Proof. repeat split; vm_compute; reflexivity. Qed.

End ResolverClaims.

(* ===================================================================== *)
(** ** Properties of the orchestrator *)
(* ===================================================================== *)

Module EngineFacts.
Import JS Merger Disk Resolver ResolverFacts SyncEngine.

Lemma listFiles_NoDup (tree : Tree) : NoDup (listFiles tree).
Proof. apply NoDup_fst_map_to_list. Qed.

Lemma NoDup_map_injective {A B} (f : A -> B) (l : list A) a b :
  NoDup (map f l) -> In a l -> In b l -> f a = f b -> a = b.
Proof.
  induction l as [|x l IH]; cbn; [tauto|].
  intros Hnd Ha Hb Hf. apply NoDup_cons in Hnd as [Hfresh Hnd].
  destruct Ha as [->|Ha], Hb as [->|Hb]; auto.
  - exfalso. apply Hfresh. rewrite Hf. apply list_elem_of_In.
    now apply in_map.
  - exfalso. apply Hfresh. rewrite <- Hf. apply list_elem_of_In.
    now apply in_map.
Qed.

Lemma NoDup_of_map {A B} (f : A -> B) (l : list A) :
  NoDup (map f l) -> NoDup l.
Proof.
  induction l as [|x l IH]; cbn; intros Hnd; [constructor|].
  apply NoDup_cons in Hnd as [Hfresh Hnd]. apply NoDup_cons. split; auto.
  intros Hin. apply Hfresh. apply list_elem_of_In. apply in_map.
  now apply list_elem_of_In.
Qed.

Lemma filter_singleton {A} (f : A -> bool) (l : list A) x :
  NoDup l -> In x l -> (forall c, In c l -> f c = true <-> c = x) ->
  length (List.filter f l) = 1%nat.
Proof.
  induction l as [|y l IH]; cbn; [tauto|].
  intros Hnd Hin Hf. apply NoDup_cons in Hnd as [Hfresh Hnd].
  destruct Hin as [->|Hin].
  - rewrite (proj2 (Hf x (or_introl eq_refl)) eq_refl). cbn. f_equal.
    assert (Hnone : forall c, In c l -> f c = false).
    { intros c Hc. destruct (f c) eqn:E; [|reflexivity].
      apply Hf in E; [|now right]. subst c. exfalso. apply Hfresh.
      now apply list_elem_of_In. }
    clear -Hnone. induction l as [|z l IH]; cbn; [reflexivity|].
    rewrite (Hnone z (or_introl eq_refl)). apply IH.
    intros c Hc. apply Hnone. now right.
  - destruct (f y) eqn:E.
    + apply Hf in E; [|now left]. subst y. exfalso. apply Hfresh.
      now apply list_elem_of_In.
    + apply IH; auto; intros c Hc; apply Hf; now right.
Qed.

Lemma In_length_positive {A} (x : A) (l : list A) :
  In x l -> (0 <? length l)%nat = true.
Proof. destruct l; [intros []|reflexivity]. Qed.

(** Every conflict record is about one of the listed files. *)
Lemma checkForConflicts_paths files w p :
  In p (map path (checkForConflicts files w)) -> In p files.
Proof.
  induction files as [|f files IH]; cbn; [tauto|].
  destruct (claudeHome w !! f) as [l|]; [|auto].
  destruct (syncRepoDir w !! f) as [r|]; [|auto].
  destruct (negb (String.eqb (content l) (content r))); [|auto].
  cbn. intros [<-|Hin]; auto.
Qed.

Lemma checkForConflicts_NoDup files w :
  NoDup files -> NoDup (map path (checkForConflicts files w)).
Proof.
  induction files as [|f files IH]; cbn; intros Hnd; [constructor|].
  apply NoDup_cons in Hnd as [Hfresh Hnd].
  destruct (claudeHome w !! f) as [l|]; [|auto].
  destruct (syncRepoDir w !! f) as [r|]; [|auto].
  destruct (negb (String.eqb (content l) (content r))); [|auto].
  cbn. apply NoDup_cons. split; [|auto].
  intros Hin. apply Hfresh. apply list_elem_of_In.
  apply (checkForConflicts_paths files w). now apply list_elem_of_In.
Qed.

(** Under 'ask', the unresolved records are the skipped ones. *)
Lemma countUnresolved_ask prompt dm parse print w found :
  countUnresolved (resolveConflicts prompt dm parse print Ask w found) =
  length (List.filter
            (fun c => isSkip (Some (prompt c (offered (canMerge (path c))))))
            found).
Proof.
  unfold countUnresolved, resolveConflicts.
  induction found as [|c found IH]; [reflexivity|].
  cbn [map List.filter]. rewrite markResolved_ask.
  destruct (isSkip _) eqn:E; cbn [setResolved resolved truthy negb length];
    now rewrite IH.
Qed.

(* ------------------------------------------------------------------- *)
(** *** Copying a batch of files *)

Lemma copyFile_contents t (from to : Tree) f :
  content <$> copyFile t from to f =
  match from !! f with
  | Some x => <[f := content x]> (content <$> to)
  | None => content <$> to
  end.
Proof.
  unfold copyFile, writeFile. destruct (from !! f); [|reflexivity].
  now rewrite fmap_insert.
Qed.


Lemma copy_keeps_held t (from : Tree) files : forall (to : Tree) f x,
  from !! f = Some x ->
  (content <$> to) !! f = Some (content x) ->
  (content <$> foldl (fun tree file => copyFile t from tree file) to files)
    !! f = Some (content x).
Proof.
  induction files as [|g files IH]; intros to f x Hf Hheld; cbn;
    [exact Hheld|].
  apply IH; [exact Hf|]. rewrite copyFile_contents.
  destruct (from !! g) as [y|] eqn:E; [|exact Hheld].
  destruct (decide (g = f)) as [->|Hne].
  - rewrite lookup_insert_eq. congruence.
  - now rewrite lookup_insert_ne.
Qed.

(** After a batch copy the target holds the content of every copied
    file. *)
Lemma copy_holds t (from : Tree) files : forall (to : Tree) f x,
  In f files -> from !! f = Some x ->
  (content <$> foldl (fun tree file => copyFile t from tree file) to files)
    !! f = Some (content x).
Proof.
  induction files as [|g files IH]; intros to f x Hin Hf; [destruct Hin|].
  cbn. destruct Hin as [->|Hin].
  - apply copy_keeps_held; [exact Hf|].
    rewrite copyFile_contents, Hf. apply lookup_insert_eq.
  - now apply IH.
Qed.

(* ------------------------------------------------------------------- *)
(** *** Push *)





End EngineFacts.

Module EngineClaims.
Import JS Merger Disk Resolver ResolverFacts SyncEngine EngineFacts Samples.

(* ------------------------------------------------------------------- *)
(** *** Push twice *)


(* ------------------------------------------------------------------- *)
(** *** Pull with a skipped conflict *)

(** C2, as stated, fails: in this pull the user keeps [a.json] and skips
    [b.json], so exactly one record is left unresolved by 'skip' and the
    other is resolved; the result is not a success and carries no
    conflicts sequence. *)
Lemma pull_one_skip_not_success :
  checkForConflicts (getRepoFiles world_ab) world_ab
  = [conflict_a; conflict_b] /\
  resolveConflicts prompt_skip_b take_remote parse_one print_null Ask
    world_ab [conflict_a; conflict_b]
  = [setResolved conflict_a true; setResolved conflict_b false] /\
  ~ (success (fst (pull Ask sync_all pull_nothing prompt_skip_b take_remote
                     parse_one print_null world_ab)) = true /\
     conflicts (fst (pull Ask sync_all pull_nothing prompt_skip_b
                       take_remote parse_one print_null world_ab))
     <> None).
Proof.
  split; [vm_compute; reflexivity|]. split; [vm_compute; reflexivity|].
  intros [Hsuccess _]. vm_compute in Hsuccess. discriminate.
Qed.

(** C2, amended: when the transport pull succeeds and exactly one of the
    conflicts found is answered 'skip' while every other one is
    resolved, the pull applies the resolutions of the resolved records
    and does nothing else to the live tree, the skipped file stays as it
    was, and the result is a failure: [success = false], one error
    ["1 conflicts remain unresolved"], and no conflicts sequence. *)
Theorem pull_with_one_skip shouldSyncFile gitPull prompt dm parse print
    (w : World) (r' : Repo) (skipped : ConflictInfo) :
  let w2 := withRepo (createBackup shouldSyncFile w) r' in
  let found := checkForConflicts (getRepoFiles w2) w2 in
  let out := pull Ask shouldSyncFile gitPull prompt dm parse print w in
  let resolvedList := resolveConflicts prompt dm parse print Ask w2 found in
  gitPull (repo w) = (true, r') ->
  In skipped found ->
  (forall c, In c found ->
             prompt c (offered (canMerge (path c))) = Skip <-> c = skipped) ->
  success (fst out) = false /\
  conflicts (fst out) = None /\
  pulled (fst out) = None /\
  errors (fst out) = Some ["1 conflicts remain unresolved"] /\
  message (fst out) = "Pull completed with unresolved conflicts" /\
  In (setResolved skipped false) resolvedList /\
  (forall c, In c found -> c <> skipped ->
             In (setResolved c true) resolvedList) /\
  claudeHome (snd out) =
    applyResolutions resolvedList (now w) (claudeHome w) /\
  claudeHome (snd out) !! path skipped = claudeHome w !! path skipped.
Proof.
  intros w2 found out resolvedList Hpull Hin Hskip.
  assert (Hpaths : NoDup (map path found)).
  { apply checkForConflicts_NoDup, listFiles_NoDup. }
  assert (Hmark : forall c, In c found ->
            markResolved (resolveConflict prompt dm parse print Ask w2 c) c =
            setResolved c (if decide (c = skipped) then false else true)).
  { intros c Hc. rewrite markResolved_ask.
    destruct (decide (c = skipped)) as [->|Hne].
    - now rewrite (proj2 (Hskip skipped Hin) eq_refl).
    - destruct (prompt c (offered (canMerge (path c)))) eqn:E;
        try reflexivity.
      exfalso. apply Hne. now apply Hskip. }
  assert (Hcount : countUnresolved resolvedList = 1%nat).
  { subst resolvedList. rewrite countUnresolved_ask.
    apply (filter_singleton _ found skipped).
    - now apply (NoDup_of_map path).
    - exact Hin.
    - intros c Hc. rewrite <- (Hskip c Hc).
      destruct (prompt c (offered (canMerge (path c))));
        cbn; split; congruence. }
  assert (Hout : out =
    ({| success := false; pushed := None; pulled := None;
        conflicts := None;
        errors := Some ["1 conflicts remain unresolved"];
        message := "Pull completed with unresolved conflicts" |},
     withClaudeHome w2
       (applyResolutions resolvedList (now w2) (claudeHome w2)))).
  { subst out. unfold pull.
    change (repo (createBackup shouldSyncFile w)) with (repo w).
    rewrite Hpull. cbn [negb]. fold w2. fold found.
    rewrite (In_length_positive skipped found Hin). fold resolvedList.
    rewrite Hcount. reflexivity. }
  rewrite Hout. cbn [fst snd success conflicts pulled errors message].
  repeat split.
  - subst resolvedList. unfold resolveConflicts.
    apply in_map_iff. exists skipped. split; [|exact Hin].
    rewrite (Hmark skipped Hin). now rewrite decide_True.
  - intros c Hc Hne. subst resolvedList. unfold resolveConflicts.
    apply in_map_iff. exists c. split; [|exact Hc].
    rewrite (Hmark c Hc). now rewrite decide_False.
  - cbn [withClaudeHome claudeHome].
    apply applyResolutions_untouched.
    intros c' Hc' Htruthy Hsame. subst resolvedList.
    unfold resolveConflicts in Hc'. apply in_map_iff in Hc' as (c & <- & Hc).
    rewrite (Hmark c Hc) in Htruthy, Hsame.
    destruct (decide (c = skipped)) as [->|Hne]; [discriminate|].
    apply Hne. cbn in Hsame.
    now apply (NoDup_map_injective path found c skipped Hpaths).
Qed.

Lemma pull_with_one_skip_witness :
  success (fst (pull Ask sync_all pull_nothing prompt_skip_b take_remote
                  parse_one print_null world_ab)) = false /\
  claudeHome (snd (pull Ask sync_all pull_nothing prompt_skip_b take_remote
                     parse_one print_null world_ab)) !! "b.json"
  = Some (file "local b" 10).
Proof.
  destruct (pull_with_one_skip sync_all pull_nothing prompt_skip_b
              take_remote parse_one print_null world_ab (repo world_ab)
              conflict_b)
    as (Hsuccess & _ & _ & _ & _ & _ & _ & _ & Hkept).
  - reflexivity.
  - vm_compute. right. left. reflexivity.
  - assert (Hfound :
      checkForConflicts
        (getRepoFiles (withRepo (createBackup sync_all world_ab)
                         (repo world_ab)))
        (withRepo (createBackup sync_all world_ab) (repo world_ab))
      = [conflict_a; conflict_b]) by (vm_compute; reflexivity).
    rewrite Hfound. intros c [<-|[<-|[]]].
    + split; intros H; [discriminate H|].
      apply (f_equal path) in H. discriminate H.
    + split; reflexivity.
  - split; [exact Hsuccess|].
    etransitivity; [exact Hkept|]. vm_compute. reflexivity.
Defined.

End EngineClaims.

(* ===================================================================== *)
(** ** Further properties of the merge engine and the decision table *)
(* ===================================================================== *)

Module EngineProperties.
Import JS Merger MergerFacts MergerClaims Disk Resolver Samples.






(** X2: when both documents differ from the base, every site where local
    and remote hold different values, one of them a primitive, is
    reported among the conflicting keys. *)
Theorem threeWayMerge_both_sides_conflict st base local remote q :
  wf local -> local <> base -> remote <> base ->
  conflictSite local remote q ->
  In (Str.join "." q) (conflicts (threeWayMerge st base local remote)).
Proof.
  intros Hwf Hl Hr Hsite.
  rewrite (threeWayMerge_both_changed st base local remote Hl Hr).
  cbn [conflicts]. apply (conflicts_sites st local remote [] _ Hwf).
  exists q. split; [reflexivity|exact Hsite].
Qed.

Lemma threeWayMerge_both_sides_conflict_witness :
  In "a" (conflicts (threeWayMerge Ask (JObject [("a", JNum 1)])
                       (JObject [("a", JNum 2)]) (JObject [("a", JNum 3)]))).
Proof.
  apply (threeWayMerge_both_sides_conflict Ask (JObject [("a", JNum 1)])
           (JObject [("a", JNum 2)]) (JObject [("a", JNum 3)]) ["a"]).
  - cbn. repeat split. repeat constructor. intros H. inversion H.
  - discriminate.
  - discriminate.
  - exists (JNum 2), (JNum 3). repeat split. discriminate.
Defined.

End EngineProperties.

(* ===================================================================== *)
(** ** What the merge keeps *)
(* ===================================================================== *)

Module MergeProperties.
Import JS Merger MergerFacts Samples.













(** X5: in the three-way merge, a side that equals the base gives way to
    the other side: when local equals base the result is the remote
    document as it is, when remote equals base the result is the local
    document as it is, in both cases with no conflict and
    [merged = true]. *)
Theorem threeWayMerge_unchanged_side_gives_way st base local remote :
  (local = base ->
   threeWayMerge st base local remote =
   {| result := remote; conflicts := []; merged := true |}) /\
  (remote = base ->
   threeWayMerge st base local remote =
   {| result := local; conflicts := []; merged := true |}).
Proof.
  split.
  - intros Hl. destruct (eqb remote base) eqn:E.
    + apply eqb_eq in E. rewrite E at 2. now apply threeWayMerge_unchanged.
    + apply threeWayMerge_only_remote; [exact Hl|]. now apply strictEq_false.
  - intros Hr. destruct (eqb local base) eqn:E.
    + apply eqb_eq in E. rewrite E at 2. now apply threeWayMerge_unchanged.
    + apply threeWayMerge_only_local; [|exact Hr]. now apply strictEq_false.
Qed.

Lemma threeWayMerge_unchanged_side_gives_way_witness :
  threeWayMerge Ask base_ab base_ab remote_ab =
  {| result := remote_ab; conflicts := []; merged := true |}.
Proof.
  apply (proj1 (threeWayMerge_unchanged_side_gives_way Ask base_ab base_ab
                  remote_ab)).
  reflexivity.
Defined.


(** X7: [mergeFiles] changes no file but the output file; an exception
    leaves it exactly when both files are missing; when one file is
    missing the output receives the content of the other and the outcome
    is [merged = true] without conflicts. *)
Theorem mergeFiles_effect parse print st
    (localPath remotePath outputPath : string) (disk : gmap string string) :
  (forall p, p <> outputPath ->
     snd (mergeFiles parse print st localPath remotePath outputPath disk)
       !! p = disk !! p) /\
  (fst (mergeFiles parse print st localPath remotePath outputPath disk)
   = Throws <->
   disk !! localPath = None /\ disk !! remotePath = None) /\
  (forall text,
     (disk !! localPath = None /\ disk !! remotePath = Some text) \/
     (disk !! localPath = Some text /\ disk !! remotePath = None) ->
     mergeFiles parse print st localPath remotePath outputPath disk =
     (Returns {| result := JNull; conflicts := []; merged := true |},
      <[outputPath := text]> disk)).
Proof.
  unfold mergeFiles.
  destruct (disk !! localPath) as [lc|]; destruct (disk !! remotePath) as [rc|].
  - destruct (parse lc) as [lj|]; [destruct (parse rc) as [rj|]|];
      cbn [fst snd]; (split; [|split]);
      try (intros p Hp; now rewrite ?lookup_insert_ne by congruence);
      try (split; [discriminate|intros [H _]; discriminate]);
      intros text [[H _]|[_ H]]; discriminate.
  - cbn [fst snd]. split; [|split].
    + intros p Hp. now rewrite lookup_insert_ne by congruence.
    + split; [discriminate|intros [H _]; discriminate].
    + intros text [[H _]|[[= ->] _]]; [discriminate|reflexivity].
  - cbn [fst snd]. split; [|split].
    + intros p Hp. now rewrite lookup_insert_ne by congruence.
    + split; [discriminate|intros [_ H]; discriminate].
    + intros text [[_ [= ->]]|[H _]]; [reflexivity|discriminate].
  - cbn [fst snd]. split; [|split].
    + reflexivity.
    + tauto.
    + intros text [[_ H]|[H _]]; discriminate.
Qed.

Lemma append_cons c (s t : string) : String c s +:+ t = String c (s +:+ t).
Proof. reflexivity. Qed.

Lemma length_append (s t : string) :
  String.length (s +:+ t) = (String.length s + String.length t)%nat.
Proof.
  induction s as [|c s IH]; [reflexivity|].
  rewrite append_cons. cbn. now rewrite IH.
Qed.

Lemma substring_whole (s : string) : substring 0 (String.length s) s = s.
Proof. induction s as [|c s IH]; cbn; [reflexivity|now rewrite IH]. Qed.

Lemma substring_skip (s t : string) m :
  substring (String.length s) m (s +:+ t) = substring 0 m t.
Proof.
  induction s as [|c s IH]; [reflexivity|]. rewrite append_cons. exact IH.
Qed.

Lemma substring_split (s : string) : forall n,
  (n <= String.length s)%nat ->
  s = substring 0 n s +:+ substring n (String.length s - n) s.
Proof.
  induction s as [|c s IH]; intros [|n] Hn; cbn in Hn; try lia.
  - reflexivity.
  - rewrite Nat.sub_0_r, substring_whole. reflexivity.
  - cbn [substring String.length Nat.sub]. rewrite append_cons. f_equal.
    apply IH. lia.
Qed.

Lemma endsWith_append (s suffix : string) :
  Str.endsWith (s +:+ suffix) suffix = true.
Proof.
  unfold Str.endsWith. rewrite length_append.
  apply andb_true_iff. split.
  - apply Nat.leb_le. lia.
  - replace (String.length s + String.length suffix - String.length suffix)%nat
      with (String.length s) by lia.
    rewrite substring_skip, substring_whole. apply String.eqb_refl.
Qed.

Lemma endsWith_inv (s suffix : string) :
  Str.endsWith s suffix = true -> exists stem, s = stem +:+ suffix.
Proof.
  unfold Str.endsWith. intros H. apply andb_true_iff in H as [Hle Heq].
  apply Nat.leb_le in Hle. apply String.eqb_eq in Heq.
  exists (substring 0 (String.length s - String.length suffix) s).
  pose proof (substring_split s (String.length s - String.length suffix)) as H.
  replace (String.length s - (String.length s - String.length suffix))%nat
    with (String.length suffix) in H by lia.
  rewrite Heq in H. apply H. lia.
Qed.

(** X8: [canMerge] accepts a path exactly when it is some text followed
    by [.json] (the text may be empty, upper case [.JSON] is refused). *)
Theorem canMerge_json_suffix (filePath : string) :
  (canMerge filePath = true <-> exists stem, filePath = stem +:+ ".json") /\
  canMerge ".json" = true /\ canMerge "settings.JSON" = false.
Proof.
  split; [|split; reflexivity].
  unfold canMerge. cbn [existsb]. rewrite orb_false_r. split.
  - apply endsWith_inv.
  - intros [stem ->]. apply endsWith_append.
Qed.

End MergeProperties.

(* ===================================================================== *)
(** ** What the resolver does to records and files *)
(* ===================================================================== *)

Module ResolverProperties.
Import JS Merger Disk Resolver ResolverFacts ResolverRest SyncEngine Samples.

Lemma applyResolutions_lookup conflicts t : forall (tree : Tree) p,
  applyResolutions conflicts t tree !! p =
  match lastWrite conflicts p with
  | Some text => Some {| content := text; mtime := t |}
  | None => tree !! p
  end.
Proof.
  induction conflicts as [|c rest IH]; intros tree p; cbn; [reflexivity|].
  rewrite IH. destruct (lastWrite rest p) as [text|]; [reflexivity|].
  destruct (truthy (resolved c)); cbn; [|reflexivity].
  unfold writeFile. destruct (String.eqb_spec (path c) p) as [->|Hne].
  - apply lookup_insert_eq.
  - now apply lookup_insert_ne.
Qed.

Lemma findConflicts_In localDir remoteDir files c :
  In c (findConflicts localDir remoteDir files) <->
  In (path c) files /\
  exists l r, localDir !! path c = Some l /\ remoteDir !! path c = Some r /\
              content l <> content r /\
              c = {| path := path c; localContent := content l;
                     remoteContent := content r; resolved := None |}.
Proof.
  induction files as [|f files IH]; cbn.
  - split; [tauto|]. intros [[] _].
  - assert (Hskip : (localDir !! f = None \/ remoteDir !! f = None \/
                     exists l r, localDir !! f = Some l /\
                                 remoteDir !! f = Some r /\
                                 content l = content r) ->
              (In c (findConflicts localDir remoteDir files) <->
               (f = path c \/ In (path c) files) /\
               exists l r, localDir !! path c = Some l /\
                           remoteDir !! path c = Some r /\
                           content l <> content r /\
                           c = {| path := path c; localContent := content l;
                                  remoteContent := content r;
                                  resolved := None |})).
    { intros Hno. rewrite IH. split.
      - intros [Hin Hex]. split; [now right|exact Hex].
      - intros [[->|Hin] Hex]; [|split; assumption].
        exfalso. destruct Hex as (l & r & Hl & Hr & Hne & _).
        destruct Hno as [Hno|[Hno|(l' & r' & Hl' & Hr' & Heq)]]; congruence. }
    destruct (localDir !! f) as [l|] eqn:Hl;
      destruct (remoteDir !! f) as [r|] eqn:Hr;
      try (apply Hskip; auto; fail).
    destruct (String.eqb_spec (content l) (content r)) as [Heq|Hne]; cbn.
    + apply Hskip. right. right. eauto.
    + rewrite IH. split.
      * intros [<-|[Hin Hex]].
        -- cbn. split; [now left|]. exists l, r. auto.
        -- split; [now right|exact Hex].
      * intros [[->|Hin] Hex]; [|right; split; assumption].
        left. destruct Hex as (l' & r' & Hl' & Hr' & _ & ->). cbn in *.
        congruence.
Qed.

Lemma checkForConflicts_findConflicts files w :
  checkForConflicts files w =
  findConflicts (claudeHome w) (syncRepoDir w) files.
Proof.
  induction files as [|f files IH]; cbn; [reflexivity|].
  destruct (claudeHome w !! f), (syncRepoDir w !! f); try exact IH.
  destruct (negb _); [now rewrite IH|exact IH].
Qed.

Lemma markResolved_fixed prompt dm parse print st w c :
  st <> Ask ->
  markResolved (resolveConflict prompt dm parse print st w c) c =
  setResolved c true.
Proof.
  intros Hst. destruct st; try congruence; try reflexivity.
  cbn [resolveConflict]. unfold resolveByNewest.
  destruct (statMtime _ _), (statMtime _ _); try reflexivity.
  now destruct (_ >? _)%Z.
Qed.

(** X9: [resolveConflicts] returns the records it was given, in order,
    and changes nothing but the flag [resolved]: it is set to false for a
    record whose answer under 'ask' was 'skip', and to true for every
    other record and under every other strategy. *)
Theorem resolveConflicts_sets_only_flags prompt dm parse print st w found :
  resolveConflicts prompt dm parse print st w found =
  map (fun c =>
         setResolved c
           (negb (isAsk st &&
                  isSkip (Some (prompt c (offered (canMerge (path c))))))))
      found.
Proof.
  unfold resolveConflicts. apply map_ext. intros c.
  destruct st; try (now rewrite markResolved_fixed).
  rewrite markResolved_ask. cbn [isAsk andb].
  now destruct (isSkip _).
Qed.

(** X10: [findConflicts] reports a record for a path exactly when the
    path is among the files given, the file exists on both sides and the
    two contents differ; the record then carries the two contents.  The
    orchestrator's [checkForConflicts] finds the same records. *)
Theorem findConflicts_sound_and_complete localDir remoteDir files w :
  (forall c,
     In c (findConflicts localDir remoteDir files) <->
     In (path c) files /\
     exists l r, localDir !! path c = Some l /\
                 remoteDir !! path c = Some r /\
                 content l <> content r /\
                 c = {| path := path c; localContent := content l;
                        remoteContent := content r; resolved := None |}) /\
  checkForConflicts files w =
  findConflicts (claudeHome w) (syncRepoDir w) files.
Proof.
  split; [intros c; apply findConflicts_In|].
  apply checkForConflicts_findConflicts.
Qed.

(** X11: after [applyResolutions] a path holds the remote content of the
    last record for that path whose [resolved] flag is set, and keeps its
    file when there is no such record; applying the same records a second
    time changes nothing. *)
Theorem applyResolutions_effect conflicts t (tree : Tree) :
  (forall p,
     applyResolutions conflicts t tree !! p =
     match lastWrite conflicts p with
     | Some text => Some {| content := text; mtime := t |}
     | None => tree !! p
     end) /\
  applyResolutions conflicts t (applyResolutions conflicts t tree) =
  applyResolutions conflicts t tree.
Proof.
  split; [apply applyResolutions_lookup|].
  apply map_eq. intros p. rewrite !applyResolutions_lookup.
  now destruct (lastWrite conflicts p).
Qed.

End ResolverProperties.

(* ===================================================================== *)
(** ** What pull, push, sync and restore do to the trees *)
(* ===================================================================== *)

Module TreeProperties.
Import JS Merger Disk Resolver ResolverFacts ResolverRest SyncEngine
  EngineFacts EngineRest ResolverProperties Samples MoreSamples.

Lemma listFiles_In (tree : Tree) f :
  In f (listFiles tree) <-> is_Some (tree !! f).
Proof.
  unfold listFiles. rewrite in_map_iff. split.
  - intros ([f' x] & <- & Hin).
    apply list_elem_of_In, elem_of_map_to_list in Hin. cbn. eauto.
  - intros [x Hx]. exists (f, x). split; [reflexivity|].
    now apply list_elem_of_In, elem_of_map_to_list.
Qed.


Lemma length_listFiles (tree : Tree) : length (listFiles tree) = size tree.
Proof. unfold listFiles. rewrite length_map. apply length_map_to_list. Qed.

(** A batch copy leaves alone every path that is not copied. *)
Lemma copy_other t (from : Tree) files : forall (to : Tree) f,
  ~ In f files ->
  foldl (fun tree file => copyFile t from tree file) to files !! f = to !! f.
Proof.
  induction files as [|g files IH]; intros to f Hnot; cbn; [reflexivity|].
  rewrite IH by (intros Hin; apply Hnot; now right).
  unfold copyFile, writeFile. destruct (from !! g); [|reflexivity].
  apply lookup_insert_ne. intros ->. apply Hnot. now left.
Qed.

(** The content of a path after a batch copy. *)
Lemma copy_content t (from : Tree) files (to : Tree) f :
  content <$> foldl (fun tree file => copyFile t from tree file) to files
    !! f =
  match from !! f with
  | Some x => if bool_decide (f ∈ files) then Some (content x)
              else content <$> to !! f
  | None => content <$> to !! f
  end.
Proof.
  destruct (from !! f) as [x|] eqn:Hx.
  - case_bool_decide as H.
    + rewrite <- lookup_fmap. apply copy_holds; [|exact Hx].
      now apply list_elem_of_In.
    + rewrite copy_other; [reflexivity|]. intros Hin. apply H.
      now apply list_elem_of_In.
  - revert to. induction files as [|g files IH]; intros to; cbn;
      [reflexivity|].
    rewrite IH. unfold copyFile, writeFile.
    destruct (from !! g) as [y|] eqn:E; [|reflexivity].
    rewrite lookup_insert_ne; [reflexivity|]. intros ->. congruence.
Qed.



Lemma countUnresolved_all_resolved found :
  countUnresolved (map (fun c => setResolved c true) found) = 0%nat.
Proof. unfold countUnresolved. induction found; cbn; auto. Qed.

Section WithCollaborators.
Variable strategy : ConflictStrategy.
Variable shouldSyncFile : string -> bool.
Variable gitPull : Repo -> bool * Repo.
Variable gitPush : Repo -> bool.
Variable prompt : ConflictInfo -> list Choice -> Choice.
Variable dm : JSValue -> JSValue -> JSValue.
Variable parse : string -> option JSValue.
Variable print : JSValue -> string.

Local Abbreviation pull :=
  (pull strategy shouldSyncFile gitPull prompt dm parse print).
Local Abbreviation sync :=
  (sync strategy shouldSyncFile gitPull gitPush prompt dm parse print).

Lemma resolveConflicts_all_resolved w found :
  (strategy = Ask -> forall c, In c found ->
                     prompt c (offered (canMerge (path c))) <> Skip) ->
  resolveConflicts prompt dm parse print strategy w found =
  map (fun c => setResolved c true) found.
Proof.
  intros Hans. unfold resolveConflicts. apply map_ext_in. intros c Hc.
  destruct strategy; try (now apply markResolved_fixed).
  rewrite markResolved_ask.
  specialize (Hans eq_refl c Hc).
  now destruct (prompt c (offered (canMerge (path c)))).
Qed.

Lemma finishPull_tree repoFiles found w f :
  content <$> claudeHome (snd (finishPull repoFiles found w)) !! f =
  match syncRepoDir w !! f with
  | Some x => if bool_decide (f ∈ repoFiles) then Some (content x)
              else content <$> claudeHome w !! f
  | None => content <$> claudeHome w !! f
  end.
Proof. cbn. apply copy_content. Qed.


(** A failed pull always names an error. *)
Lemma pull_failure_has_errors w :
  success (fst (pull w)) = false -> hasErrors (fst (pull w)) = true.
Proof.
  unfold SyncEngine.pull. destruct (gitPull _) as [ok r'].
  destruct ok; cbn [negb]; [|reflexivity].
  destruct (0 <? length _)%nat; [|discriminate].
  destruct (0 <? countUnresolved _)%nat; [reflexivity|discriminate].
Qed.


End WithCollaborators.

End TreeProperties.

Module PullPushProperties.
Import JS Merger Disk Resolver ResolverFacts ResolverRest SyncEngine
  EngineFacts EngineRest ResolverProperties TreeProperties Samples
  MoreSamples.

Section WithCollaborators.
Variable strategy : ConflictStrategy.
Variable shouldSyncFile : string -> bool.
Variable gitPull : Repo -> bool * Repo.
Variable gitPush : Repo -> bool.
Variable prompt : ConflictInfo -> list Choice -> Choice.
Variable dm : JSValue -> JSValue -> JSValue.
Variable parse : string -> option JSValue.
Variable print : JSValue -> string.

Local Abbreviation pull :=
  (pull strategy shouldSyncFile gitPull prompt dm parse print).
Local Abbreviation sync :=
  (sync strategy shouldSyncFile gitPull gitPush prompt dm parse print).

(** X12: when the transport pull succeeds and no conflict is skipped
    (under 'local', 'remote' and 'newest' none can be), the pull
    succeeds, counts the files of the mirror, and leaves the live tree
    with the mirror's content for every file of the mirror, whatever the
    strategy chose, and with its own file for every other path. *)
Theorem pull_takes_mirror w r' :
  gitPull (repo w) = (true, r') ->
  (strategy = Ask ->
   forall c,
     In c (findConflicts (claudeHome w) (worktree r')
             (listFiles (worktree r'))) ->
     prompt c (offered (canMerge (path c))) <> Skip) ->
  success (fst (pull w)) = true /\
  pulled (fst (pull w)) = Some (size (worktree r')) /\
  errors (fst (pull w)) = None /\
  repo (snd (pull w)) = r' /\
  forall f,
    content <$> claudeHome (snd (pull w)) !! f =
    match worktree r' !! f with
    | Some x => Some (content x)
    | None => content <$> claudeHome w !! f
    end.
Proof.
  intros Hpull Hans. unfold SyncEngine.pull.
  change (repo (createBackup shouldSyncFile w)) with (repo w). rewrite Hpull.
  cbn [negb].
  set (w2 := withRepo (createBackup shouldSyncFile w) r').
  set (found := checkForConflicts (getRepoFiles w2) w2).
  assert (Hfound : found =
    findConflicts (claudeHome w) (worktree r') (listFiles (worktree r'))).
  { subst found. now rewrite checkForConflicts_findConflicts. }
  assert (Hres : resolveConflicts prompt dm parse print strategy w2 found =
                 map (fun c => setResolved c true) found).
  { apply resolveConflicts_all_resolved. intros Hst c Hc.
    apply Hans; [exact Hst|]. now rewrite <- Hfound. }
  assert (Hmirror : forall f x, worktree r' !! f = Some x ->
            bool_decide (f ∈ getRepoFiles w2) = true).
  { intros f x Hx. apply bool_decide_eq_true. apply list_elem_of_In.
    apply listFiles_In. cbn. eauto. }
  destruct (0 <? length found)%nat eqn:Hlen.
  - rewrite Hres, countUnresolved_all_resolved. cbn [Nat.ltb Nat.leb].
    repeat split; try reflexivity.
    + cbn. f_equal. apply length_listFiles.
    + intros f. rewrite finishPull_tree.
      change (syncRepoDir (withClaudeHome w2 _)) with (worktree r').
      destruct (worktree r' !! f) as [x|] eqn:Hx.
      * now rewrite (Hmirror f x Hx).
      * cbn [withClaudeHome claudeHome].
        rewrite applyResolutions_untouched; [reflexivity|].
        intros c Hc _ Hp. apply in_map_iff in Hc as (c0 & <- & Hc0).
        cbn in Hp. subst f.
        assert (Hin : In (path c0) (getRepoFiles w2)).
        { apply (checkForConflicts_paths _ w2). now apply in_map. }
        apply listFiles_In in Hin as [x Hx'].
        change (syncRepoDir w2) with (worktree r') in Hx'. congruence.
  - repeat split; try reflexivity.
    + cbn. f_equal. apply length_listFiles.
    + intros f. rewrite finishPull_tree.
      change (syncRepoDir w2) with (worktree r').
      destruct (worktree r' !! f) as [x|] eqn:Hx; [|reflexivity].
      now rewrite (Hmirror f x Hx).
Qed.

(** X13: when the transport pull fails, the pull reports the failure
    with the one error "Failed to pull from remote" and leaves the live
    tree as it was. *)
Theorem pull_transport_failure w r' :
  gitPull (repo w) = (false, r') ->
  fst (pull w) =
    {| success := false; pushed := None; pulled := None; conflicts := None;
       errors := Some ["Failed to pull from remote"];
       message := "Failed to pull from remote" |} /\
  claudeHome (snd (pull w)) = claudeHome w /\
  repo (snd (pull w)) = r'.
Proof.
  intros Hpull. unfold SyncEngine.pull.
  change (repo (createBackup shouldSyncFile w)) with (repo w). rewrite Hpull.
  cbn. auto.
Qed.



(** X16: [sync] stops at a failed pull: its outcome is then the pull's,
    and no push is made.  It succeeds exactly when the pull and the push
    that follows both succeed, and then it reports the pull's [pulled],
    the push's [pushed] and no conflicts sequence. *)
Theorem sync_phases w :
  (success (fst (pull w)) = false -> sync w = pull w) /\
  (success (fst (sync w)) = true <->
   success (fst (pull w)) = true /\
   success (fst (push shouldSyncFile gitPush (snd (pull w)))) = true) /\
  (success (fst (sync w)) = true ->
   snd (sync w) = snd (push shouldSyncFile gitPush (snd (pull w))) /\
   pulled (fst (sync w)) = pulled (fst (pull w)) /\
   pushed (fst (sync w))
   = pushed (fst (push shouldSyncFile gitPush (snd (pull w)))) /\
   conflicts (fst (sync w)) = None).
Proof.
  pose proof (pull_failure_has_errors strategy shouldSyncFile gitPull prompt
                dm parse print w) as Herr.
  unfold EngineRest.sync.
  destruct (pull w) as [pr w1] eqn:Hp. cbn [fst snd] in *.
  destruct (success pr) eqn:Hs; cbn [negb andb].
  - destruct (push shouldSyncFile gitPush w1) as [qr w2] eqn:Hq.
    cbn [fst snd].
    destruct (success qr) eqn:Hq'; cbn [negb fst snd success].
    + split; [discriminate|]. split; [tauto|]. auto.
    + split; [discriminate|]. rewrite Hq'. split; [|discriminate].
      split; [discriminate|intros [_ H]; discriminate].
  - rewrite (Herr eq_refl). cbn [fst snd]. rewrite Hs.
    split; [reflexivity|]. split; [|discriminate].
    split; [discriminate|intros [H _]; discriminate].
Qed.

End WithCollaborators.

Lemma pull_takes_mirror_witness :
  success (fst (SyncEngine.pull Ask sync_all pull_nothing prompt_keep_local
                  take_remote parse_one print_null world_ab)) = true /\
  content <$> claudeHome
    (snd (SyncEngine.pull Ask sync_all pull_nothing prompt_keep_local
            take_remote parse_one print_null world_ab)) !! "a.json"
  = Some "remote a".
Proof.
  destruct (pull_takes_mirror Ask sync_all pull_nothing prompt_keep_local
              take_remote parse_one print_null world_ab (repo world_ab))
    as (Hs & _ & _ & _ & Htree).
  - reflexivity.
  - intros _ c _ H. discriminate H.
  - split; [exact Hs|]. rewrite Htree. vm_compute. reflexivity.
Defined.

Lemma pull_transport_failure_witness :
  claudeHome
    (snd (SyncEngine.pull Ask sync_all pull_fails prompt_skip_b take_remote
            parse_one print_null world_ab))
  = claudeHome world_ab.
Proof.
  apply (pull_transport_failure Ask sync_all pull_fails prompt_skip_b
           take_remote parse_one print_null world_ab (repo world_ab)).
  reflexivity.
Defined.


End PullPushProperties.

(* ===================================================================== *)
(** ** Listing and cleaning backups *)
(* ===================================================================== *)

Module BackupProperties.
Import Backups MoreSamples.

Lemma insertNewestFirst_perm b l : insertNewestFirst b l ≡ₚ b :: l.
Proof.
  induction l as [|x l IH]; cbn; [reflexivity|].
  destruct (_ <=? _)%Z; [reflexivity|].
  rewrite IH. apply Permutation_swap.
Qed.

Lemma sortNewestFirst_perm l : sortNewestFirst l ≡ₚ l.
Proof.
  induction l as [|b l IH]; cbn; [reflexivity|].
  now rewrite insertNewestFirst_perm, IH.
Qed.

Lemma insertNewestFirst_sorted b l :
  StronglySorted newerOrSame l ->
  StronglySorted newerOrSame (insertNewestFirst b l).
Proof.
  induction 1 as [|x l Hl IH Hx]; cbn.
  - repeat constructor.
  - destruct (Z.leb_spec (timestamp x) (timestamp b)) as [Hle|Hgt].
    + constructor; [now constructor|]. constructor; [exact Hle|].
      rewrite Forall_forall in Hx |- *. intros y Hy. specialize (Hx y Hy).
      unfold newerOrSame in *. lia.
    + constructor; [exact IH|].
      rewrite insertNewestFirst_perm. constructor; [|exact Hx].
      unfold newerOrSame. lia.
Qed.

Lemma sortNewestFirst_sorted l :
  StronglySorted newerOrSame (sortNewestFirst l).
Proof.
  induction l as [|b l IH]; cbn; [constructor|].
  now apply insertNewestFirst_sorted.
Qed.

Lemma collectBackups_In entries b :
  In b (collectBackups entries) <->
  exists e, In e entries /\ isDirectory e = true /\
            String.prefix "backup-" (name e) = true /\
            b = {| timestamp := mtime e; path := name e;
                   files := contents e |}.
Proof.
  induction entries as [|e entries IH]; cbn.
  - split; [tauto|]. intros (? & [] & _).
  - destruct (isDirectory e && String.prefix "backup-" (name e)) eqn:E.
    + apply andb_true_iff in E as [Hd Hp]. cbn. rewrite IH. split.
      * intros [<-|(e' & Hin & H)]; [exists e; auto|exists e'; auto].
      * intros (e' & [->|Hin] & Hd' & Hp' & ->); [now left|right; eauto 6].
    + rewrite IH. split.
      * intros (e' & Hin & H). exists e'. auto.
      * intros (e' & [->|Hin] & Hd' & Hp' & ->); [|eauto 6].
        rewrite Hd', Hp' in E. discriminate.
Qed.

Lemma StronglySorted_app_inv {A} (R : A -> A -> Prop) l1 l2 :
  StronglySorted R (l1 ++ l2) -> forall a b, In a l1 -> In b l2 -> R a b.
Proof.
  induction l1 as [|x l1 IH]; cbn; [tauto|].
  intros Hs a b [->|Ha] Hb.
  - apply StronglySorted_inv in Hs as [_ Hall].
    rewrite Forall_forall in Hall. apply Hall. apply list_elem_of_In.
    apply in_or_app. now right.
  - apply StronglySorted_inv in Hs as [Hs _]. now apply IH.
Qed.

Lemma listBackups_sorted dir : StronglySorted newerOrSame (listBackups dir).
Proof. destruct dir; cbn; [apply sortNewestFirst_sorted|constructor]. Qed.

(** X17: [listBackups] lists the newest backup first (no backup is
    followed by a more recent one), and lists exactly the directories
    whose name starts with [backup-], each once; a missing backup
    directory gives the empty list. *)
Theorem listBackups_newest_first dir :
  StronglySorted newerOrSame (listBackups dir) /\
  (forall entries,
     dir = Some entries ->
     listBackups dir ≡ₚ collectBackups entries /\
     forall b,
       In b (listBackups dir) <->
       exists e, In e entries /\ isDirectory e = true /\
                 String.prefix "backup-" (name e) = true /\
                 b = {| timestamp := mtime e; path := name e;
                        files := contents e |}) /\
  (dir = None -> listBackups dir = []).
Proof.
  split; [apply listBackups_sorted|split].
  - intros entries ->. cbn. split; [apply sortNewestFirst_perm|].
    intros b. rewrite <- collectBackups_In. split; intros H.
    + apply list_elem_of_In. rewrite <- sortNewestFirst_perm.
      now apply list_elem_of_In.
    + apply list_elem_of_In. rewrite sortNewestFirst_perm.
      now apply list_elem_of_In.
  - now intros ->.
Qed.

Lemma listBackups_newest_first_witness :
  map path (listBackups (Some backup_entries))
  = ["backup-3"; "backup-2"; "backup-1"] /\
  StronglySorted newerOrSame (listBackups (Some backup_entries)).
Proof.
  split; [reflexivity|].
  apply (proj1 (listBackups_newest_first (Some backup_entries))).
Defined.

(** X18: [backup clean --keep k] with [k] not negative keeps the [k]
    backups that [listBackups] lists first and deletes the rest, and no
    deleted backup is more recent than a kept one. *)
Theorem clean_keeps_newest dir (k : Z) :
  (0 <= k)%Z ->
  listBackups dir =
    take (Z.to_nat k) (listBackups dir)
    ++ toDelete (Some k) (listBackups dir) /\
  forall kept deleted,
    In kept (take (Z.to_nat k) (listBackups dir)) ->
    In deleted (toDelete (Some k) (listBackups dir)) ->
    (timestamp deleted <= timestamp kept)%Z.
Proof.
  intros Hk. set (backups := listBackups dir).
  assert (Hsel : toDelete (Some k) backups = drop (Z.to_nat k) backups).
  { unfold toDelete, slice.
    destruct (Z.leb_spec (Z.of_nat (length backups)) k) as [Hle|Hgt].
    - symmetry. apply drop_ge. lia.
    - destruct (Z.ltb_spec k 0); [lia|]. f_equal. lia. }
  rewrite Hsel. split; [now rewrite take_drop|].
  intros kept deleted Hkept Hdel.
  apply (StronglySorted_app_inv newerOrSame (take (Z.to_nat k) backups)
           (drop (Z.to_nat k) backups)
           ltac:(rewrite take_drop; apply listBackups_sorted)
           kept deleted Hkept Hdel).
Qed.

Lemma clean_keeps_newest_witness :
  map path (toDelete (Some 2%Z) (listBackups (Some backup_entries)))
  = ["backup-1"] /\
  listBackups (Some backup_entries) =
    take 2 (listBackups (Some backup_entries))
    ++ toDelete (Some 2%Z) (listBackups (Some backup_entries)).
Proof.
  split; [reflexivity|].
  apply (proj1 (clean_keeps_newest (Some backup_entries) 2 ltac:(lia))).
Defined.

(** X19: the selection of [backup clean] at the edges: a [--keep] that
    does not parse as a number, or that is 0, selects every backup for
    deletion; a [keep] of at least the number of backups selects none; a
    negative [keep] of [-k] selects only the last [k] of the list, the
    oldest ones. *)
Theorem clean_edge_cases (backups : list BackupInfo) :
  toDelete None backups = backups /\
  toDelete (Some 0%Z) backups = backups /\
  (forall k, (Z.of_nat (length backups) <= k)%Z ->
             toDelete (Some k) backups = []) /\
  (forall k, (0 < k <= Z.of_nat (length backups))%Z ->
             toDelete (Some (- k)%Z) backups =
             drop (length backups - Z.to_nat k) backups).
Proof.
  unfold toDelete, slice. repeat split.
  - destruct backups; reflexivity.
  - intros k Hk.
    destruct (Z.leb_spec (Z.of_nat (length backups)) k); [reflexivity|lia].
  - intros k Hk.
    destruct (Z.leb_spec (Z.of_nat (length backups)) (- k)); [lia|].
    destruct (Z.ltb_spec (- k) 0); [|lia]. f_equal. lia.
Qed.

End BackupProperties.
